(** * The timeline synchronisation engine of [main.mjs]

    A shallow embedding of the publish/subscribe data store
    ([createDataStore]), the render sink adapter ([applyDynamicToEntity]),
    the clamp/snap functions of the timeline controller ([clampTime],
    [snapSegmentValue], [applyTimelineValue]) and the autoplay clock
    ([onUpdate]), together with the properties the specification states
    about them.

    JavaScript numbers are IEEE 754 binary64 values; they are modelled by
    the Standard Library's [spec_float] with [prec = 53], [emax = 1024],
    so every arithmetic step of the source is rounded as the source
    rounds it. *)

From Stdlib Require Import ZArith Lia Bool.
From Stdlib Require Import Floats.SpecFloat.
From stdpp Require Import gmap strings list fin_maps.

Set Default Proof Using "Type".

(** ** The event store: [createDataStore] *)

Module EventStore.

(** A callback is a JavaScript function object; only its identity matters
    to the store, so it is a name.  A [loc] is the identity of a [Set]
    object: [emit] holds a reference to the [Set] it iterates while the
    callbacks it calls may drop that [Set] from the [listeners] map and
    create another one under the same event name. *)
Abbreviation Callback := nat.
Abbreviation loc := nat.

(** The [[SetData]] list of a JavaScript [Set]: deleting an element
    leaves an [empty] marker ([None]) in its place, adding appends. *)
Abbreviation SetData := (list (option Callback)).

Definition live (es : SetData) : list Callback := omap id es.

(** [Set.prototype.add] *)
Definition set_add (cb : Callback) (es : SetData) : SetData :=
  if bool_decide (Some cb ∈ es) then es else es ++ [Some cb].

(** [Set.prototype.delete] *)
Definition set_delete (cb : Callback) (es : SetData) : SetData :=
  (λ e, if bool_decide (e = Some cb) then None else e) <$> es.

(** [Set.prototype.size] *)
Definition set_size (es : SetData) : nat := length (live es).

Section Store.
Context {V H : Type}.

(** [values] and [listeners] are the two [Map]s of the closure; [heap]
    holds the [Set] objects the [listeners] map refers to and [next] is
    the identity the next [new Set()] gets. *)
Record Store := mkStore {
  values : gmap string V;
  listeners : gmap string loc;
  heap : gmap loc SetData;
  next : loc
}.

(** [createDataStore()] *)
Definition createDataStore : Store :=
  {| values := ∅; listeners := ∅; heap := ∅; next := 0 |}.

(** The callbacks registered for an event, in the order [forEach] visits
    them. *)
Definition registered (s : Store) (ev : string) : list Callback :=
  match listeners s !! ev with
  | Some l => live (default [] (heap s !! l))
  | None => []
  end.

(** [on: (eventName, callback) => { if (!listeners.has(eventName))
    listeners.set(eventName, new Set());
    listeners.get(eventName).add(callback); }] *)
Definition on (ev : string) (cb : Callback) (s : Store) : Store :=
  let s1 :=
    match listeners s !! ev with
    | Some _ => s
    | None =>
        {| values := values s;
           listeners := <[ev := next s]> (listeners s);
           heap := <[next s := []]> (heap s);
           next := S (next s) |}
    end in
  match listeners s1 !! ev with
  | Some l =>
      {| values := values s1;
         listeners := listeners s1;
         heap := alter (set_add cb) l (heap s1);
         next := next s1 |}
  | None => s1
  end.

(** [off: (eventName, callback) => { const callbacks =
    listeners.get(eventName); if (!callbacks) return;
    callbacks.delete(callback);
    if (callbacks.size === 0) listeners.delete(eventName); }] *)
Definition off (ev : string) (cb : Callback) (s : Store) : Store :=
  match listeners s !! ev with
  | None => s
  | Some l =>
      let heap1 := alter (set_delete cb) l (heap s) in
      {| values := values s;
         listeners :=
           if Nat.eqb (set_size (default [] (heap1 !! l))) 0
           then delete ev (listeners s) else listeners s;
         heap := heap1;
         next := next s |}
  end.

(** [values.set(key, value)], the first statement of [set]. *)
Definition store_value (key : string) (v : V) (s : Store) : Store :=
  {| values := <[key := v]> (values s);
     listeners := listeners s;
     heap := heap s;
     next := next s |}.

(** [get: (key) => values.get(key)]; [None] is [undefined]. *)
Definition get (key : string) (s : Store) : option V := values s !! key.

(** The template string [`${key}:set`]. *)
Definition set_event (key : string) : string := (key +:+ ":set")%string.

(** What a callback (or any other client code) does: it terminates after
    finitely many calls of the store's four operations and updates of the
    variables [H] of the closure it lives in. *)
Inductive Prog :=
  | Done
  | CallOn (ev : string) (cb : Callback) (k : Prog)
  | CallOff (ev : string) (cb : Callback) (k : Prog)
  | CallSet (key : string) (v : V) (k : Prog)
  | CallGet (key : string) (k : option V → Prog)
  | Update (f : H → H) (k : Prog)
  | Read (k : H → Prog).

(** [p; q] *)
Fixpoint seq (p q : Prog) : Prog :=
  match p with
  | Done => q
  | CallOn ev cb k => CallOn ev cb (seq k q)
  | CallOff ev cb k => CallOff ev cb (seq k q)
  | CallSet key v k => CallSet key v (seq k q)
  | CallGet key k => CallGet key (λ o, seq (k o) q)
  | Update f k => Update f (seq k q)
  | Read k => Read (λ h, seq (k h) q)
  end.

(** The store, the client's variables and two observation traces: the
    callback invocations ([callback(value)] in [emit]) and the calls of
    [set], both oldest first. *)
Record World := mkWorld {
  store : Store;
  host : H;
  calls : list (Callback * V);
  writes : list (string * V)
}.

Definition with_store (f : Store → Store) (w : World) : World :=
  {| store := f (store w); host := host w; calls := calls w; writes := writes w |}.

Definition with_host (f : H → H) (w : World) : World :=
  {| store := store w; host := f (host w); calls := calls w; writes := writes w |}.

Definition record_call (cb : Callback) (v : V) (w : World) : World :=
  {| store := store w; host := host w; calls := calls w ++ [(cb, v)]; writes := writes w |}.

Definition record_write (key : string) (v : V) (w : World) : World :=
  {| store := store w; host := host w; calls := calls w; writes := writes w ++ [(key, v)] |}.

(** What is left to do: a program, a call of [emit], or the rest of a
    [Set.prototype.forEach] over the [Set] object [callbacks], about to
    read [entries[index]]. *)
Inductive Activity :=
  | Run (p : Prog)
  | Emit (eventName : string) (value : V)
  | ForEach (callbacks : loc) (index : nat) (value : V).

Variable bodies : Callback → V → Prog.

(** [set: (key, value) => { values.set(key, value);
    emit(`${key}:set`, value); }] and [emit: (eventName, value) => {
    const callbacks = listeners.get(eventName); if (!callbacks) return;
    callbacks.forEach((callback) => callback(value)); }].

    [forEach] re-reads the number of entries of the [Set] object after
    every callback, and skips [empty] entries.  Callbacks may call [set]
    again, so the interpreter takes fuel. *)
Fixpoint exec (fuel : nat) (t : Activity) (w : World) : option World :=
  match fuel with
  | O => None
  | S fuel =>
      match t with
      | Run Done => Some w
      | Run (CallOn ev cb k) => exec fuel (Run k) (with_store (on ev cb) w)
      | Run (CallOff ev cb k) => exec fuel (Run k) (with_store (off ev cb) w)
      | Run (CallSet key v k) =>
          let w1 := record_write key v (with_store (store_value key v) w) in
          match exec fuel (Emit (set_event key) v) w1 with
          | Some w2 => exec fuel (Run k) w2
          | None => None
          end
      | Run (CallGet key k) => exec fuel (Run (k (get key (store w)))) w
      | Run (Update f k) => exec fuel (Run k) (with_host f w)
      | Run (Read k) => exec fuel (Run (k (host w))) w
      | Emit eventName value =>
          match listeners (store w) !! eventName with
          | None => Some w
          | Some callbacks => exec fuel (ForEach callbacks 0 value) w
          end
      | ForEach callbacks index value =>
          match default [] (heap (store w) !! callbacks) !! index with
          | None => Some w
          | Some None => exec fuel (ForEach callbacks (S index) value) w
          | Some (Some callback) =>
              match exec fuel (Run (bodies callback value)) (record_call callback value w) with
              | Some w1 => exec fuel (ForEach callbacks (S index) value) w1
              | None => None
              end
          end
      end
  end.

(** The activity terminates in [w'] from [w]. *)
Definition evaluates (t : Activity) (w w' : World) : Prop :=
  ∃ fuel, exec fuel t w = Some w'.

(** The callbacks invoked since the world [w], oldest first. *)
Definition invoked_since (w w' : World) : list (Callback * V) :=
  drop (length (calls w)) (calls w').

(** The calls of [set] since the world [w], oldest first. *)
Definition written_since (w w' : World) : list (string * V) :=
  drop (length (writes w)) (writes w').

(** A program that does not call [on], [off] or [set]: it reads the
    store and works on its own variables. *)
Inductive passive : Prog → Prop :=
  | passive_done : passive Done
  | passive_get key k : (∀ o, passive (k o)) → passive (CallGet key k)
  | passive_update f k : passive k → passive (Update f k)
  | passive_read k : (∀ h, passive (k h)) → passive (Read k).

(** A program whose one call of [on], [off] or [set] is [on(ev, cb)],
    which it makes whatever it reads on its way. *)
Inductive only_registers (ev : string) (cb : Callback) : Prog → Prop :=
  | only_registers_here k : passive k → only_registers ev cb (CallOn ev cb k)
  | only_registers_get key k :
      (∀ o, only_registers ev cb (k o)) → only_registers ev cb (CallGet key k)
  | only_registers_update f k :
      only_registers ev cb k → only_registers ev cb (Update f k)
  | only_registers_read k :
      (∀ h, only_registers ev cb (k h)) → only_registers ev cb (Read k).

(** The same with [off(ev, cb)]. *)
Inductive only_removes (ev : string) (cb : Callback) : Prog → Prop :=
  | only_removes_here k : passive k → only_removes ev cb (CallOff ev cb k)
  | only_removes_get key k :
      (∀ o, only_removes ev cb (k o)) → only_removes ev cb (CallGet key k)
  | only_removes_update f k :
      only_removes ev cb k → only_removes ev cb (Update f k)
  | only_removes_read k :
      (∀ h, only_removes ev cb (k h)) → only_removes ev cb (Read k).

(** What a passive program leaves in its closure's variables. *)
Fixpoint host_after (s : Store) (p : Prog) (h : H) : H :=
  match p with
  | CallGet key k => host_after s (k (get key s)) h
  | Update f k => host_after s k (f h)
  | Read k => host_after s (k h) h
  | _ => h
  end.

(** The same after the callbacks [cs] were called with [v], in order. *)
Definition hosts_after (s : Store) (v : V) (cs : list Callback) (h : H) : H :=
  fold_left (λ h c, host_after s (bodies c v) h) cs h.

(** No event name is mapped to an empty callback set. *)
Definition no_empty_entry (s : Store) : Prop :=
  ∀ ev l, listeners s !! ev = Some l → 0 < set_size (default [] (heap s !! l)).

(** What [on], [off] and [set] keep true of the store: every event name
    of [listeners] has its own [Set] object, which is not empty; a [Set]
    holds no callback twice; identities at and after [next] are unused. *)
Record consistent (s : Store) : Prop := mkConsistent {
  consistent_entry : ∀ ev l, listeners s !! ev = Some l →
    ∃ es, heap s !! l = Some es ∧ live es ≠ [];
  consistent_own : ∀ ev1 ev2 l,
    listeners s !! ev1 = Some l → listeners s !! ev2 = Some l → ev1 = ev2;
  consistent_fresh : ∀ l, next s ≤ l → heap s !! l = None;
  consistent_nodup : ∀ l es, heap s !! l = Some es → NoDup (live es)
}.

(** The claim that [emit] works on a snapshot: a callback that is not
    registered for ["<key>:set"] when [set(key, v)] is called is not
    invoked before [set] returns. *)
Definition snapshot_emission (key : string) (v : V) (w : World) : Prop :=
  ∀ w' cb, evaluates (Run (CallSet key v Done)) w w' →
    cb ∉ registered (store w) (set_event key) →
    (cb, v) ∉ invoked_since w w'.

(** The claim that [set(key, v)] invokes every callback registered for
    ["<key>:set"] at the time of the call, once, in registration order,
    and no other callback. *)
Definition fans_out (key : string) (v : V) (w : World) : Prop :=
  ∀ w', evaluates (Run (CallSet key v Done)) w w' →
    invoked_since w w' = (λ cb, (cb, v)) <$> registered (store w) (set_event key).

(** A sequence of calls of [on], [off] and [set] by the store's client. *)
Inductive Op :=
  | OpOn (ev : string) (cb : Callback)
  | OpOff (ev : string) (cb : Callback)
  | OpSet (key : string) (v : V).

Fixpoint script (ops : list Op) : Prog :=
  match ops with
  | [] => Done
  | OpOn ev cb :: ops => CallOn ev cb (script ops)
  | OpOff ev cb :: ops => CallOff ev cb (script ops)
  | OpSet key v :: ops => CallSet key v (script ops)
  end.

(** A call of [on] or of [off] by the store's client. *)
Inductive Registration :=
  | Register (ev : string) (cb : Callback)
  | Remove (ev : string) (cb : Callback).

Definition register (s : Store) (r : Registration) : Store :=
  match r with
  | Register ev cb => on ev cb s
  | Remove ev cb => off ev cb s
  end.

(** The store after the calls [rs], oldest first. *)
Definition registrations (rs : list Registration) (s : Store) : Store :=
  fold_left register rs s.

(** Registration order, in the claim's words: the callbacks of the event
    [ev] from the one registered first to the one registered last, after
    the calls [rs], when the order before them was [cs].  Registering a
    callback that is registered does not move it; removing one keeps the
    others in their order; calls for other events do not count. *)
Fixpoint registration_order (ev : string) (rs : list Registration)
    (cs : list Callback) : list Callback :=
  match rs with
  | [] => cs
  | Register ev' cb :: rs =>
      registration_order ev rs
        (if bool_decide (ev' = ev)
         then (if bool_decide (cb ∈ cs) then cs else cs ++ [cb])
         else cs)
  | Remove ev' cb :: rs =>
      registration_order ev rs
        (if bool_decide (ev' = ev) then filter (λ c, c ≠ cb) cs else cs)
  end.

(** The program calls [off(ev, cb)], whatever it reads on its way. *)
Inductive calls_off (ev : string) (cb : Callback) : Prog → Prop :=
  | calls_off_here k : calls_off ev cb (CallOff ev cb k)
  | calls_off_after_on ev' c k :
      calls_off ev cb k → calls_off ev cb (CallOn ev' c k)
  | calls_off_after_off ev' c k :
      calls_off ev cb k → calls_off ev cb (CallOff ev' c k)
  | calls_off_after_set key v k :
      calls_off ev cb k → calls_off ev cb (CallSet key v k)
  | calls_off_after_get key k :
      (∀ o, calls_off ev cb (k o)) → calls_off ev cb (CallGet key k)
  | calls_off_after_update f k :
      calls_off ev cb k → calls_off ev cb (Update f k)
  | calls_off_after_read k :
      (∀ h, calls_off ev cb (k h)) → calls_off ev cb (Read k).

(** The claim that a removal during the emission pass keeps the callback
    out of the pass: when a callback [A] registered for ["<key>:set"]
    calls [off("<key>:set", cb)] for a callback [cb] registered after
    it, [cb] is not invoked before [set(key, v)] returns. *)
Definition removal_keeps_out (key : string) (v : V) (w : World) : Prop :=
  ∀ w' A cb earlier later,
    registered (store w) (set_event key) = earlier ++ A :: later →
    cb ∈ later →
    calls_off (set_event key) cb (bodies A v) →
    evaluates (Run (CallSet key v Done)) w w' →
    (cb, v) ∉ invoked_since w w'.

End Store.

Arguments Store : clear implicits.
Arguments Op : clear implicits.
Arguments calls_off {V H} ev cb _.
Arguments only_registers {V H} ev cb _.
Arguments only_removes {V H} ev cb _.
Arguments Prog : clear implicits.
Arguments World : clear implicits.
Arguments Activity : clear implicits.

End EventStore.

(** Three small clients of the store, with numbers as values and no
    variables of their own.  In each, callbacks [0], [1], [2] are
    distinct function objects. *)
Module Scenarios.
Import EventStore.

Definition blank (s : Store nat) : World nat unit :=
  {| store := s; host := tt; calls := []; writes := [] |}.

(** Callback [0] registers callback [1] for the event it is called for:
    [data.on('k:set', () => data.on('k:set', cb1))]. *)
Definition registering (cb : Callback) (v : nat) : Prog nat unit :=
  if Nat.eqb cb 0 then CallOn "k:set" 1 Done else Done.

Definition one_listener : Store nat := on "k:set" 0 createDataStore.

(** Callback [0] removes callback [1], registered after it:
    [data.on('k:set', () => data.off('k:set', cb1)); data.on('k:set', cb1)]. *)
Definition removing (cb : Callback) (v : nat) : Prog nat unit :=
  if Nat.eqb cb 0 then CallOff "k:set" 1 Done else Done.

Definition two_listeners : Store nat :=
  on "k:set" 1 (on "k:set" 0 createDataStore).

(** Callback [0] removes callback [1] and registers it again:
    [data.on('k:set', () => { data.off('k:set', cb1);
    data.on('k:set', cb1); })]. *)
Definition readding (cb : Callback) (v : nat) : Prog nat unit :=
  if Nat.eqb cb 0 then CallOff "k:set" 1 (CallOn "k:set" 1 Done) else Done.

(** Callbacks that only record that they were called. *)
Definition recording (cb : Callback) (v : nat) : Prog nat unit := Done.

(** [cb0] twice and [cb1] on ["k:set"], [cb2] on ["j:set"]. *)
Definition fan : Store nat :=
  on "j:set" 2 (on "k:set" 1 (on "k:set" 0 (on "k:set" 0 createDataStore))).

(** The same as calls, oldest first: [data.on('k:set', cb0);
    data.on('k:set', cb0); data.on('k:set', cb1); data.on('j:set', cb2)]. *)
Definition fan_calls : list Registration :=
  [Register "k:set" 0; Register "k:set" 0; Register "k:set" 1; Register "j:set" 2].

End Scenarios.

(** ** The render sink adapter: [applyDynamicToEntity] *)

Module RenderSink.

(** A JavaScript call either returns or throws (here only a [TypeError],
    from reading a property of [undefined] or [null]). *)
Inductive outcome (A : Type) :=
  | Returned (a : A)
  | Threw.
Arguments Returned {A} a.
Arguments Threw {A}.

(** PlayCanvas's objects, as far as the adapter reads them.  A flag is
    [None] when the property is absent ([undefined]).  The component of
    a [pc.Entity] knows the node that owns it ([Component.entity] is set
    by the component's constructor); the component and its instance can
    be missing. *)
Definition GSplatInstance := nat.

Record Node := mkNode { node_enabled : option bool }.

Record GSplatComponent := mkGSplat {
  instance : option GSplatInstance;
  enabled : option bool;
  entity : Node
}.

Record Entity := mkEntity { gsplat : option GSplatComponent }.

(** What the adapter can be handed as [entity]: any object.  Its [gsplat]
    property, if there is one, is any object too, so that the [entity]
    property of that object can be missing as well. *)
Module Any.

Record Component := mkComponent {
  instance : option GSplatInstance;
  enabled : option bool;
  entity : option Node
}.

Record Target := mkTarget { gsplat : option Component }.

End Any.

(** A [pc.Entity] as an argument of the adapter. *)
Definition as_component (c : GSplatComponent) : Any.Component :=
  {| Any.instance := instance c;
     Any.enabled := enabled c;
     Any.entity := Some (entity c) |}.

Definition as_target (e : Entity) : Any.Target :=
  {| Any.gsplat := option_map as_component (gsplat e) |}.

(** JavaScript truthiness of a flag. *)
Definition truthy (flag : option bool) : bool := default false flag.

(** Optional chaining, [o?.f]: [undefined] when [o] is missing. *)
Definition chain {A B : Type} (o : option A) (f : A → option B) : option B :=
  match o with
  | Some a => f a
  | None => None
  end.

Section Sink.
Context {V : Type}.

(** [const applyDynamicToEntity = (entity, value) => {
      const instance = entity?.gsplat?.instance;
      if (!instance || !entity.gsplat?.enabled || !entity.gsplat?.entity.enabled) return;
      instance.applyDynamicState(value); }]

    [applied] lists the calls of [applyDynamicState] so far, oldest first.
    [?.] yields [undefined] on a missing object, and so does the rest of
    its chain; a plain [.] on a missing object throws.  In
    [entity.gsplat?.entity.enabled] the last [.enabled] is a plain one. *)
Definition applyDynamicToEntity (target : option Any.Target) (value : V)
    (applied : list (GSplatInstance * V)) : outcome (list (GSplatInstance * V)) :=
  let instance_ := chain (chain target Any.gsplat) Any.instance in
  match instance_ with
  | None => Returned applied
  | Some inst =>
      match target with
      | None => Threw
      | Some e =>
          if negb (truthy (chain (Any.gsplat e) Any.enabled)) then Returned applied
          else
            match Any.gsplat e with
            | None => Returned applied
            | Some c =>
                match Any.entity c with
                | None => Threw
                | Some node =>
                    if negb (truthy (node_enabled node)) then Returned applied
                    else Returned (applied ++ [(inst, value)])
                end
            end
      end
  end.

(** The instance of a [pc.Entity] that gets the value: the entity, its
    [gsplat] component and the component's instance are there, and the
    component and the node that owns it are enabled. *)
Definition ready (target : option Entity) : option GSplatInstance :=
  match target with
  | Some e =>
      match gsplat e with
      | Some c =>
          match instance c with
          | Some inst =>
              if truthy (enabled c) && truthy (node_enabled (entity c))
              then Some inst else None
          | None => None
          end
      | None => None
      end
  | None => None
  end.

(** The claim's words, for any target: the value is forwarded when the
    target, its [gsplat] component and the component's instance are
    there and both flags, the component's and its owning node's, are
    [true]; in every other case nothing is done. *)
Definition forwarded_to (target : option Any.Target) : option GSplatInstance :=
  match target with
  | Some {| Any.gsplat :=
        Some {| Any.instance := Some inst;
                Any.enabled := Some true;
                Any.entity := Some {| node_enabled := Some true |} |} |} =>
      Some inst
  | _ => None
  end.

(** A target other than a component that has an instance and is enabled
    but has no owning node. *)
Definition owned (target : option Any.Target) : Prop :=
  match target with
  | Some {| Any.gsplat :=
        Some {| Any.instance := Some _;
                Any.enabled := Some true;
                Any.entity := None |} |} => False
  | _ => True
  end.

(** The claim that the adapter never raises an error, whatever it is
    handed. *)
Definition never_raises : Prop :=
  ∀ target value applied, applyDynamicToEntity target value applied ≠ Threw.

End Sink.

Arguments never_raises V : clear implicits.

End RenderSink.

(** ** JavaScript numbers *)

Module JSNumber.

Definition num := spec_float.

Definition prec : Z := 53.
Definition emax : Z := 1024.

Definition fadd : num → num → num := SFadd prec emax.
Definition fsub : num → num → num := SFsub prec emax.
Definition fmul : num → num → num := SFmul prec emax.
Definition fdiv : num → num → num := SFdiv prec emax.

(** [a >= b], [a <= b] and [a > b]; all false when an operand is [NaN]. *)
Definition fge (a b : num) : bool := SFleb b a.
Definition fle (a b : num) : bool := SFleb a b.
Definition fgt (a b : num) : bool := SFltb b a.

(** The number an integer literal denotes. *)
Definition of_Z (n : Z) : num := binary_normalize prec emax n 0 false.

(** The number a decimal literal [n/d] denotes: the binary64 value
    nearest to the quotient. *)
Definition decimal (n d : Z) : num := fdiv (of_Z n) (of_Z d).

(** [Number.isFinite] *)
Definition isFinite (x : num) : bool :=
  match x with
  | S754_zero _ | S754_finite _ _ _ => true
  | S754_infinity _ | S754_nan => false
  end.

(** [Math.round]: the integer nearest to [x], ties towards [+∞]; [-0]
    when [-0.5 <= x < 0]; integers, zeros, infinities and [NaN] are
    returned unchanged. *)
Definition Math_round (x : num) : num :=
  match x with
  | S754_finite s m e =>
      if (0 <=? e)%Z then x
      else
        let n := ((2 * cond_Zopp s (Zpos m) + 2 ^ (- e)) / 2 ^ (1 - e))%Z in
        if (n =? 0)%Z then S754_zero s else of_Z n
  | _ => x
  end.

(** Modelled from the spec: [pc.math.clamp] is PlayCanvas's and not in the
    repository; the spec says "Clamp to [MIN, MAX]".  PlayCanvas writes it
    [if (value >= max) return max; if (value <= min) return min;
    return value;]. *)
Definition clamp (value min max : num) : num :=
  if fge value max then max
  else if fle value min then min
  else value.



(** The same binary64 value (a [NaN] is the same as a [NaN], [+0] is not
    [-0]). *)
Definition num_eqb (a b : num) : bool :=
  match a, b with
  | S754_zero s, S754_zero s' => Bool.eqb s s'
  | S754_infinity s, S754_infinity s' => Bool.eqb s s'
  | S754_nan, S754_nan => true
  | S754_finite s m e, S754_finite s' m' e' =>
      Bool.eqb s s' && Pos.eqb m m' && Z.eqb e e'
  | _, _ => false
  end.

(** A genuine binary64 value: the mantissa and exponent of a finite
    number are in normal form. *)
Definition valid (x : num) : Prop := valid_binary prec emax x = true.

Global Arguments fadd : simpl never.
Global Arguments fsub : simpl never.
Global Arguments fmul : simpl never.
Global Arguments fdiv : simpl never.
Global Arguments fge : simpl never.
Global Arguments fle : simpl never.
Global Arguments fgt : simpl never.
Global Arguments of_Z : simpl never.

End JSNumber.

(** ** The timeline controller and the autoplay clock *)

Module Timeline.
Import EventStore RenderSink JSNumber.

Definition TIMELINE_MIN : num := Eval vm_compute in of_Z 0.
Definition TIMELINE_MAX : num := Eval vm_compute in of_Z 2.
Definition TIMELINE_STEP : num := Eval vm_compute in decimal 2 100.
Definition SEGMENT_DURATION : num := Eval vm_compute in of_Z 2.
Definition SEGMENT_MAX : num := fsub SEGMENT_DURATION TIMELINE_STEP.
Definition AUTOPLAY_INTERVAL : num := TIMELINE_STEP.

(** The literal [0.5] of [onUpdate]. *)
Definition RATE : num := Eval vm_compute in decimal 5 10.

(** The [let] variables of the load callback, the render target [gs1] and
    the calls its instance received. *)
Record State := mkState {
  isDragging : bool;
  autoplayAccumulator : num;
  currentTimelineValue : num;
  isPaused : bool;
  gs1 : Entity;
  applied : list (GSplatInstance * num)
}.

Definition set_isDragging (b : bool) (st : State) : State :=
  {| isDragging := b; autoplayAccumulator := autoplayAccumulator st;
     currentTimelineValue := currentTimelineValue st; isPaused := isPaused st;
     gs1 := gs1 st; applied := applied st |}.

Definition set_autoplayAccumulator (a : num) (st : State) : State :=
  {| isDragging := isDragging st; autoplayAccumulator := a;
     currentTimelineValue := currentTimelineValue st; isPaused := isPaused st;
     gs1 := gs1 st; applied := applied st |}.

Definition set_currentTimelineValue (v : num) (st : State) : State :=
  {| isDragging := isDragging st; autoplayAccumulator := autoplayAccumulator st;
     currentTimelineValue := v; isPaused := isPaused st;
     gs1 := gs1 st; applied := applied st |}.

Definition set_isPaused (b : bool) (st : State) : State :=
  {| isDragging := isDragging st; autoplayAccumulator := autoplayAccumulator st;
     currentTimelineValue := currentTimelineValue st; isPaused := b;
     gs1 := gs1 st; applied := applied st |}.

Definition set_applied (a : list (GSplatInstance * num)) (st : State) : State :=
  {| isDragging := isDragging st; autoplayAccumulator := autoplayAccumulator st;
     currentTimelineValue := currentTimelineValue st; isPaused := isPaused st;
     gs1 := gs1 st; applied := a |}.

(** [const clampTime = (value) => {
      const numericValue = Number.isFinite(value) ? value : TIMELINE_MIN;
      const clamped = pc.math.clamp(numericValue, TIMELINE_MIN, TIMELINE_MAX);
      const snapped = Math.round(clamped / TIMELINE_STEP) * TIMELINE_STEP;
      return pc.math.clamp(snapped, TIMELINE_MIN, TIMELINE_MAX - TIMELINE_STEP); }] *)
Definition clampTime (value : num) : num :=
  let numericValue := if isFinite value then value else TIMELINE_MIN in
  let clamped := clamp numericValue TIMELINE_MIN TIMELINE_MAX in
  let snapped := fmul (Math_round (fdiv clamped TIMELINE_STEP)) TIMELINE_STEP in
  clamp snapped TIMELINE_MIN (fsub TIMELINE_MAX TIMELINE_STEP).

(** [const snapSegmentValue = (value) => {
      const clamped = pc.math.clamp(value, TIMELINE_MIN, SEGMENT_MAX);
      return Math.round(clamped / TIMELINE_STEP) * TIMELINE_STEP; }] *)
Definition snapSegmentValue (value : num) : num :=
  let clamped := clamp value TIMELINE_MIN SEGMENT_MAX in
  fmul (Math_round (fdiv clamped TIMELINE_STEP)) TIMELINE_STEP.

(** [updatePlaybackState]: [applyDynamicToEntity(gs1,
    snapSegmentValue(timelineValue))].  [gs1] is a [pc.Entity]
    ([createEntity] makes it), and on a [pc.Entity] the adapter does
    not throw, so the second branch is dead. *)
Definition updatePlaybackState (timelineValue : num) (st : State) : State :=
  match applyDynamicToEntity (Some (as_target (gs1 st)))
          (snapSegmentValue timelineValue) (applied st) with
  | Returned log => set_applied log st
  | Threw => st
  end.

(** [applyTimelineValue]: [currentTimelineValue = clampTime(rawValue)],
    then [updatePlaybackState]; [syncSliderValue] only writes to the DOM
    and is left out. *)
Definition applyTimelineValue (rawValue : num) (st : State) : State :=
  let timelineValue := clampTime rawValue in
  updatePlaybackState timelineValue (set_currentTimelineValue timelineValue st).

(** [setPlaybackPaused], without its writes to the button. *)
Definition setPlaybackPaused (paused : bool) (st : State) : State :=
  set_autoplayAccumulator (of_Z 0) (set_isPaused paused st).

(** The key every writer of the timeline value sets. *)
Definition uTime : string := "timeline.uTime"%string.

(** [timelineHandler], the one callback the program registers, under
    ["timeline.uTime:set"]. *)
Definition timelineHandler : Callback := 0.

Definition bodies (cb : Callback) (value : num) : Prog num State :=
  if Nat.eqb cb timelineHandler then Update (applyTimelineValue value) Done
  else Done.

(** [const onSliderInput = () => { const value = parseFloat(slider.value);
    if (!Number.isNaN(value)) { setSliderTrackFill(value);
    data.set('timeline.uTime', value); } }], given the parsed value. *)
Definition onSliderInput (value : num) : Prog num State :=
  match value with
  | S754_nan => Done
  | _ => CallSet uTime value Done
  end.

(** [const onUpdate = (dt) => {
      if (isDragging || isPaused) { autoplayAccumulator = 0; return; }
      autoplayAccumulator += dt * 0.5;
      if (autoplayAccumulator >= AUTOPLAY_INTERVAL) {
        autoplayAccumulator -= AUTOPLAY_INTERVAL;
        let nextValue = currentTimelineValue + TIMELINE_STEP;
        if (nextValue > TIMELINE_MAX - TIMELINE_STEP) nextValue = TIMELINE_MIN;
        data.set('timeline.uTime', nextValue); } }] *)
Definition onUpdate (dt : num) : Prog num State :=
  Read (λ st,
    if isDragging st || isPaused st then
      Update (set_autoplayAccumulator (of_Z 0)) Done
    else
      Update (λ st, set_autoplayAccumulator (fadd (autoplayAccumulator st) (fmul dt RATE)) st)
        (Read (λ st,
           if fge (autoplayAccumulator st) AUTOPLAY_INTERVAL then
             Update (λ st, set_autoplayAccumulator (fsub (autoplayAccumulator st) AUTOPLAY_INTERVAL) st)
               (Read (λ st,
                  let nextValue := fadd (currentTimelineValue st) TIMELINE_STEP in
                  let nextValue :=
                    if fgt nextValue (fsub TIMELINE_MAX TIMELINE_STEP)
                    then TIMELINE_MIN else nextValue in
                  CallSet uTime nextValue Done))
           else Done))).

(** The frames of the application: [app.on('update', onUpdate)] calls
    [onUpdate(dt)] once per frame. *)
Fixpoint frames (dts : list num) : Prog num State :=
  match dts with
  | [] => Done
  | dt :: dts => seq (onUpdate dt) (frames dts)
  end.

(** The store once the load callback has run [data.on('timeline.uTime:set',
    timelineHandler)]. *)
Definition wired_store : Store num :=
  on (set_event uTime) timelineHandler createDataStore.

(** The store is wired as the load callback leaves it: [timelineHandler]
    is the one callback of ["timeline.uTime:set"]. *)
Definition wired (s : Store num) : Prop :=
  consistent s ∧ registered s (set_event uTime) = [timelineHandler].

(** The mantissas of [TIMELINE_STEP] and of [100]. *)
Definition step_m : positive := 5764607523034235.
Definition hundred_m : positive := 7036874417766400.

(** What [clampTime] returns when [Math.round] yields the integer [k]. *)
Definition snap (k : Z) : num :=
  clamp (fmul (of_Z k) TIMELINE_STEP) TIMELINE_MIN (fsub TIMELINE_MAX TIMELINE_STEP).

(** A check of the results [snap 0], ..., [snap 100]. *)
Definition all_snaps (P : Z → num → bool) : bool :=
  forallb (λ n, P (Z.of_nat n) (snap (Z.of_nat n))) (List.seq 0 101).





Global Arguments clampTime : simpl never.
Global Arguments snapSegmentValue : simpl never.
Global Arguments applyTimelineValue : simpl never.

(** The value [onUpdate] writes when it advances from [current]. *)
Definition nextValue (current : num) : num :=
  let next := fadd current TIMELINE_STEP in
  if fgt next (fsub TIMELINE_MAX TIMELINE_STEP) then TIMELINE_MIN else next.

(** The accumulated scaled time of the frames [dts], from an accumulator
    [a]: what [autoplayAccumulator += dt * 0.5] adds up to. *)
Definition accumulate (a : num) (dts : list num) : num :=
  fold_left (λ a dt, fadd a (fmul dt RATE)) dts a.

(** What one call of [onUpdate(dt)] leaves. *)
Definition after_update (dt : num) (w : World num State) : World num State :=
  if isDragging (host w) || isPaused (host w) then
    with_host (set_autoplayAccumulator (of_Z 0)) w
  else
    let acc := fadd (autoplayAccumulator (host w)) (fmul dt RATE) in
    if fge acc AUTOPLAY_INTERVAL then
      let next := nextValue (currentTimelineValue (host w)) in
      {| store := store_value uTime next (store w);
         host := applyTimelineValue next
                   (set_autoplayAccumulator (fsub acc AUTOPLAY_INTERVAL) (host w));
         calls := calls w ++ [(timelineHandler, next)];
         writes := writes w ++ [(uTime, next)] |}
    else with_host (set_autoplayAccumulator acc) w.

(** What the frames [dts] leave. *)
Definition after_frames (dts : list num) (w : World num State) : World num State :=
  fold_left (λ w dt, after_update dt w) dts w.

(** The claim that one call of [onUpdate] makes [k] writes when the
    accumulator reaches [k * STEP]. *)
Definition drains (k : nat) (dt : num) (w : World num State) : Prop :=
  fge (fadd (autoplayAccumulator (host w)) (fmul dt RATE))
      (fmul (of_Z (Z.of_nat k)) TIMELINE_STEP) = true →
  ∀ w', evaluates bodies (Run (onUpdate dt)) w w' →
    length (written_since w w') = k.

(** The session when playback begins: [isDragging = false],
    [autoplayAccumulator = 0], [currentTimelineValue = TIMELINE_MIN],
    [isPaused = false], a render target whose splat is not loaded yet. *)
Definition initial_state : State :=
  {| isDragging := false; autoplayAccumulator := of_Z 0;
     currentTimelineValue := TIMELINE_MIN; isPaused := false;
     gs1 := mkEntity (Some (mkGSplat None (Some true) (mkNode (Some true))));
     applied := [] |}.

Definition initial_world : World num State :=
  {| store := wired_store; host := initial_state; calls := []; writes := [] |}.

End Timeline.

(** ** More clients of the store *)

Module MoreScenarios.
Import EventStore.

(** A callback that unregisters itself and registers itself again while
    it runs: [const cb = () => { data.off('k:set', cb);
    data.on('k:set', cb); }]. *)
Definition reregistering (cb : Callback) (v : nat) : Prog nat unit :=
  if Nat.eqb cb 0 then CallOff "k:set" 0 (CallOn "k:set" 0 Done) else Done.

(** A callback that asks the store for the value of the key it listens
    to and keeps what it gets: [() => seen.push(data.get(key))]. *)
Definition asking (key : string) (cb : Callback) (v : nat) :
    Prog nat (list (Callback * option nat)) :=
  CallGet key (λ o, Update (λ seen, seen ++ [(cb, o)]) Done).

(** The store with two callbacks of ["k:set"], before any call. *)
Definition asking_world : World nat (list (Callback * option nat)) :=
  {| store := Scenarios.two_listeners; host := []; calls := []; writes := [] |}.

(** The worlds in which [forEach], at [index] of the [Set] object [l] of
    the event, still has the self-re-registering callback [A] ahead and
    another callback [B] keeps the [Set] from becoming empty. *)
Definition loops {V H : Type} (bodies : Callback → V → Prog V H)
    (ev : string) (v : V) (A B : Callback) (l : loc)
    (index : nat) (w : World V H) : Prop :=
  listeners (store w) !! ev = Some l ∧
  ∃ es, heap (store w) !! l = Some es ∧
    (∃ j, index ≤ j ∧ es !! j = Some (Some A)) ∧
    Some B ∈ es ∧
    (∀ c, Some c ∈ es → c ≠ A → passive (bodies c v)).

End MoreScenarios.

(** ** The session: the slider's DOM events, the play/pause button, the
    frames, and the start and the end of the load callback *)

Module Session.
Import EventStore RenderSink JSNumber Timeline.

(** [stopPointerEvent], [stopMouseEvent] and [stopTouchEvent], by
    [event.type]; [event.stopPropagation()] touches no variable. *)
Definition stopPointerEvent (type : string) (st : State) : State :=
  if String.eqb type "pointerdown" then set_isDragging true st
  else if String.eqb type "pointerup" || String.eqb type "pointercancel"
  then set_isDragging false st
  else st.

Definition stopMouseEvent (type : string) (st : State) : State :=
  if String.eqb type "mousedown" then set_isDragging true st
  else if String.eqb type "mouseup" || String.eqb type "mouseleave"
  then set_isDragging false st
  else st.

Definition stopTouchEvent (type : string) (st : State) : State :=
  if String.eqb type "touchstart" then set_isDragging true st
  else if String.eqb type "touchend" || String.eqb type "touchcancel"
  then set_isDragging false st
  else st.

(** The [slider.addEventListener] calls of [createTimelineSlider]: which
    handler an event of a given type reaches.  [handleWheel] and
    [handleContextMenu] touch no variable, other types have no listener. *)
Definition slider_event (type : string) (st : State) : State :=
  if bool_decide (type ∈ ["pointerdown"; "pointermove"; "pointerup"; "pointercancel"]%string)
  then stopPointerEvent type st
  else if bool_decide (type ∈ ["mousedown"; "mousemove"; "mouseup"; "mouseleave"]%string)
  then stopMouseEvent type st
  else if bool_decide (type ∈ ["touchstart"; "touchmove"; "touchend"; "touchcancel"]%string)
  then stopTouchEvent type st
  else st.

(** The event types that start a drag and those that end one. *)
Definition drag_starts : list string :=
  ["pointerdown"; "mousedown"; "touchstart"]%string.
Definition drag_ends : list string :=
  ["pointerup"; "pointercancel"; "mouseup"; "mouseleave"; "touchend"; "touchcancel"]%string.

(** [handlePlayPauseClick]: [setPlaybackPaused(!isPaused)]. *)
Definition handlePlayPauseClick (st : State) : State :=
  setPlaybackPaused (negb (isPaused st)) st.

(** What happens to the session once it runs: a frame ([app.on('update',
    onUpdate)]), a DOM event on the slider, an [input] event of the
    slider with [parseFloat(timelineSlider.value)], a click on the
    play/pause button. *)
Inductive Event :=
  | Frame (dt : num)
  | SliderEvent (type : string)
  | SliderInput (value : num)
  | PlayPauseClick.

Definition handle (e : Event) : Prog num State :=
  match e with
  | Frame dt => onUpdate dt
  | SliderEvent type => Update (slider_event type) Done
  | SliderInput value => onSliderInput value
  | PlayPauseClick => Update handlePlayPauseClick Done
  end.

Fixpoint session (es : list Event) : Prog num State :=
  match es with
  | [] => Done
  | e :: es => seq (handle e) (session es)
  end.

(** The store calls of the load callback, in order:
    [data.on('timeline.uTime:set', timelineHandler)],
    [setPlaybackPaused(false)], and at its end
    [data.set('timeline.uTime', initialTime)] with
    [initialTime = TIMELINE_MIN]. *)
Definition start_session : Prog num State :=
  CallOn (set_event uTime) timelineHandler
    (Update (setPlaybackPaused false)
       (CallSet uTime TIMELINE_MIN Done)).

(** The store call of the [destroy] handler:
    [data.off('timeline.uTime:set', timelineHandler)]. *)
Definition destroy_session : Prog num State :=
  CallOff (set_event uTime) timelineHandler Done.

(** [setSliderTrackFill]: [const range = TIMELINE_MAX - TIMELINE_MIN;
    const percent = range > 0 ? ((value - TIMELINE_MIN) / range) * 100 : 0],
    the percentage written into the slider's gradient. *)
Definition trackFillPercent (value : num) : num :=
  let range := fsub TIMELINE_MAX TIMELINE_MIN in
  if fgt range (of_Z 0)
  then fmul (fdiv (fsub value TIMELINE_MIN) range) (of_Z 100)
  else of_Z 0.

(** A value of the timeline's grid: [k * STEP] for an integer [k] from
    [0] to [99]. *)
Definition on_timeline (value : num) : Prop :=
  ∃ k : Z, (0 ≤ k ≤ 99)%Z ∧ value = fmul (of_Z k) TIMELINE_STEP.

(** The grid position after the one with index [k]. *)
Definition next_index (k : Z) : Z := if (k <? 99)%Z then (k + 1)%Z else 0%Z.

(** Every frame of [dts] advances the clock, from an accumulator [a]. *)
Fixpoint every_frame_advances (a : num) (dts : list num) : Prop :=
  match dts with
  | [] => True
  | dt :: dts =>
      fge (fadd a (fmul dt RATE)) AUTOPLAY_INTERVAL = true ∧
      every_frame_advances (fsub (fadd a (fmul dt RATE)) AUTOPLAY_INTERVAL) dts
  end.

(** The inputs of the slider are binary64 numbers. *)
Definition well_formed (e : Event) : Prop :=
  match e with
  | SliderInput value => valid value
  | _ => True
  end.

(** An event that is neither the end of a drag nor a slider input. *)
Definition keeps_drag (e : Event) : Prop :=
  match e with
  | SliderEvent type => type ∉ drag_ends
  | SliderInput _ => False
  | _ => True
  end.

(** What an event leaves. *)
Definition after_event (e : Event) (w : World num State) : World num State :=
  match e with
  | Frame dt => after_update dt w
  | SliderEvent type => with_host (slider_event type) w
  | SliderInput value =>
      match value with
      | S754_nan => w
      | _ =>
          {| store := store_value uTime value (store w);
             host := applyTimelineValue value (host w);
             calls := calls w ++ [(timelineHandler, value)];
             writes := writes w ++ [(uTime, value)] |}
      end
  | PlayPauseClick => with_host handlePlayPauseClick w
  end.

Definition after_events (es : list Event) (w : World num State) : World num State :=
  fold_left (λ w e, after_event e w) es w.

(** The timeline value is on the grid, and so is every value the render
    target's instance was given. *)
Definition settled (st : State) : Prop :=
  on_timeline (currentTimelineValue st) ∧
  Forall (λ p, on_timeline p.2) (applied st).

(** The world the load callback starts in: a store just created. *)
Definition fresh_world (st : State) : World num State :=
  {| store := createDataStore; host := st; calls := []; writes := [] |}.

(** The load callback's registration and first write, the events of the
    session, and the [destroy] handler. *)
Definition lifetime (es : list Event) : Prog num State :=
  seq start_session (seq (session es) destroy_session).

(** What [start_session] leaves. *)
Definition started (st : State) : World num State :=
  {| store := store_value uTime TIMELINE_MIN wired_store;
     host := applyTimelineValue TIMELINE_MIN (setPlaybackPaused false st);
     calls := [(timelineHandler, TIMELINE_MIN)];
     writes := [(uTime, TIMELINE_MIN)] |}.

(** A session whose render target is loaded. *)
Definition ready_state : State :=
  {| isDragging := false; autoplayAccumulator := of_Z 0;
     currentTimelineValue := TIMELINE_MIN; isPaused := false;
     gs1 := mkEntity (Some (mkGSplat (Some 7%nat) (Some true) (mkNode (Some true))));
     applied := [] |}.

Definition ready_world : World num State :=
  {| store := wired_store; host := ready_state; calls := []; writes := [] |}.

End Session.

(** ** The loading overlay *)

Module Loading.
Import JSNumber.

(** [Math.max] and [Math.min] of two numbers: [NaN] if one of them is,
    and [+0] is larger than [-0]. *)
Definition Math_max (a b : num) : num :=
  match a, b with
  | S754_nan, _ | _, S754_nan => S754_nan
  | S754_zero sa, S754_zero sb => S754_zero (sa && sb)
  | _, _ => if fge a b then a else b
  end.

Definition Math_min (a b : num) : num :=
  match a, b with
  | S754_nan, _ | _, S754_nan => S754_nan
  | S754_zero sa, S754_zero sb => S754_zero (sa || sb)
  | _, _ => if fle a b then a else b
  end.

(** [assetArray = Object.values(assets)], with the two assets [gs1] and
    [orbit]. *)
Definition assetArray_length : num := of_Z 2.

(** [const assetCount = Math.max(1, assetArray.length)] *)
Definition assetCount : num := Math_max (of_Z 1) assetArray_length.

(** [loadedCount] and the percentage the overlay shows
    ([text.textContent = `Loading ${percent}%`]). *)
Record Overlay := mkOverlay {
  loadedCount : num;
  shown : num
}.

(** [updateLoadingOverlay]: [const percent = Math.round((loadedCount /
    assetCount) * 100); loadingOverlay.setProgress(percent)]. *)
Definition updateLoadingOverlay (o : Overlay) : Overlay :=
  {| loadedCount := loadedCount o;
     shown := Math_round (fmul (fdiv (loadedCount o) assetCount) (of_Z 100)) |}.

(** [handleAssetProgress]: [loadedCount = Math.min(assetCount,
    loadedCount + 1); updateLoadingOverlay()]. *)
Definition handleAssetProgress (o : Overlay) : Overlay :=
  updateLoadingOverlay
    {| loadedCount := Math_min assetCount (fadd (loadedCount o) (of_Z 1));
       shown := shown o |}.

(** [let loadedCount = 0], then the first [updateLoadingOverlay()]. *)
Definition loading_starts : Overlay :=
  updateLoadingOverlay {| loadedCount := of_Z 0; shown := of_Z 0 |}.

(** The overlay after [n] [progress] events of the loader. *)
Definition after_progress (n : nat) : Overlay :=
  Nat.iter n handleAssetProgress loading_starts.

End Loading.

(** * Properties *)

(** ** The event store *)

Module EventStoreFacts.
Import EventStore.

Section Facts.
Context {V H : Type}.
Variable bodies : Callback → V → Prog V H.

Local Abbreviation exec := (exec bodies).
Local Abbreviation evaluates := (evaluates bodies).

(** More fuel does not change a result. *)
Lemma exec_mono fuel : ∀ fuel' (t : Activity V H) (w w' : World V H),
  fuel ≤ fuel' → exec fuel t w = Some w' → exec fuel' t w = Some w'.
Proof.
  induction fuel as [|n IH]; intros [|m] t w w' Hle Hex;
    try discriminate; try lia.
  assert (Hnm : n ≤ m) by lia.
  simpl in *. destruct t as [p | ev v | l i v].
  - destruct p; eauto.
    destruct (EventStore.exec bodies n (Emit _ _) _) as [w2|] eqn:E; [|discriminate].
    rewrite (IH m _ _ _ Hnm E). eauto.
  - destruct (listeners _ !! _); eauto.
  - destruct (_ !! i) as [[cb|]|]; eauto.
    destruct (EventStore.exec bodies n (Run _) _) as [w2|] eqn:E; [|discriminate].
    rewrite (IH m _ _ _ Hnm E). eauto.
Qed.

Lemma evaluates_deterministic (t : Activity V H) (w w1 w2 : World V H) :
  evaluates t w w1 → evaluates t w w2 → w1 = w2.
Proof.
  intros [f1 H1] [f2 H2].
  apply (exec_mono _ (f1 `max` f2)) in H1; [|lia].
  apply (exec_mono _ (f1 `max` f2)) in H2; [|lia].
  congruence.
Qed.

(** The rules of the evaluation, one per statement. *)
Lemma evaluates_done (w : World V H) : evaluates (Run Done) w w.
Proof. by exists 1. Qed.

Lemma evaluates_on ev cb k (w w' : World V H) :
  evaluates (Run k) (with_store (on ev cb) w) w' →
  evaluates (Run (CallOn ev cb k)) w w'.
Proof. intros [f Hf]. by exists (S f). Qed.

Lemma evaluates_off ev cb k (w w' : World V H) :
  evaluates (Run k) (with_store (off ev cb) w) w' →
  evaluates (Run (CallOff ev cb k)) w w'.
Proof. intros [f Hf]. by exists (S f). Qed.

Lemma evaluates_get key k (w w' : World V H) :
  evaluates (Run (k (get key (store w)))) w w' →
  evaluates (Run (CallGet key k)) w w'.
Proof. intros [f Hf]. by exists (S f). Qed.

Lemma evaluates_update g k (w w' : World V H) :
  evaluates (Run k) (with_host g w) w' →
  evaluates (Run (Update g k)) w w'.
Proof. intros [f Hf]. by exists (S f). Qed.

Lemma evaluates_read k (w w' : World V H) :
  evaluates (Run (k (host w))) w w' →
  evaluates (Run (Read k)) w w'.
Proof. intros [f Hf]. by exists (S f). Qed.

Lemma evaluates_emit_silent ev v (w : World V H) :
  listeners (store w) !! ev = None → evaluates (Emit ev v) w w.
Proof. intros Hl. exists 1. simpl. by rewrite Hl. Qed.

Lemma evaluates_emit ev v l (w w' : World V H) :
  listeners (store w) !! ev = Some l →
  evaluates (ForEach l 0 v) w w' → evaluates (Emit ev v) w w'.
Proof. intros Hl [f Hf]. exists (S f). simpl. by rewrite Hl. Qed.

Lemma evaluates_set key v k (w w1 w' : World V H) :
  evaluates (Emit (set_event key) v)
    (record_write key v (with_store (store_value key v) w)) w1 →
  evaluates (Run k) w1 w' →
  evaluates (Run (CallSet key v k)) w w'.
Proof.
  intros [f1 H1] [f2 H2]. exists (S (f1 `max` f2)). simpl.
  assert (L1 : f1 ≤ f1 `max` f2) by lia.
  assert (L2 : f2 ≤ f1 `max` f2) by lia.
  rewrite (exec_mono _ _ _ _ _ L1 H1).
  apply (exec_mono _ _ _ _ _ L2 H2).
Qed.

Lemma evaluates_set_silent key v k (w w' : World V H) :
  listeners (store w) !! set_event key = None →
  evaluates (Run k) (record_write key v (with_store (store_value key v) w)) w' →
  evaluates (Run (CallSet key v k)) w w'.
Proof.
  intros Hl Hk. eapply evaluates_set; [|exact Hk]. by apply evaluates_emit_silent.
Qed.

Lemma evaluates_set_emit key v k l (w w1 w' : World V H) :
  listeners (store w) !! set_event key = Some l →
  evaluates (ForEach l 0 v) (record_write key v (with_store (store_value key v) w)) w1 →
  evaluates (Run k) w1 w' →
  evaluates (Run (CallSet key v k)) w w'.
Proof.
  intros Hl H1 Hk. eapply evaluates_set; [|exact Hk].
  by apply (evaluates_emit _ _ l).
Qed.

Lemma evaluates_foreach_end l i v es (w : World V H) :
  heap (store w) !! l = Some es → es !! i = None →
  evaluates (ForEach l i v) w w.
Proof. intros Hh Hi. exists 1. simpl. rewrite Hh. simpl. by rewrite Hi. Qed.

Lemma evaluates_foreach_empty l i v es (w w' : World V H) :
  heap (store w) !! l = Some es → es !! i = Some None →
  evaluates (ForEach l (S i) v) w w' →
  evaluates (ForEach l i v) w w'.
Proof. intros Hh Hi [f Hf]. exists (S f). simpl. rewrite Hh. simpl. by rewrite Hi. Qed.

Lemma evaluates_foreach_call l i v es cb (w w1 w' : World V H) :
  heap (store w) !! l = Some es → es !! i = Some (Some cb) →
  evaluates (Run (bodies cb v)) (record_call cb v w) w1 →
  evaluates (ForEach l (S i) v) w1 w' →
  evaluates (ForEach l i v) w w'.
Proof.
  intros Hh Hi [f1 H1] [f2 H2]. exists (S (f1 `max` f2)). simpl.
  rewrite Hh; simpl; rewrite Hi.
  assert (L1 : f1 ≤ f1 `max` f2) by lia.
  assert (L2 : f2 ≤ f1 `max` f2) by lia.
  rewrite (exec_mono _ _ _ _ _ L1 H1).
  apply (exec_mono _ _ _ _ _ L2 H2).
Qed.

Lemma evaluates_seq p q (w w1 w' : World V H) :
  evaluates (Run p) w w1 → evaluates (Run q) w1 w' →
  evaluates (Run (seq p q)) w w'.
Proof.
  intros [f1 H1] Hq. revert p w H1.
  induction f1 as [|n IH]; intros p w H1; [discriminate|].
  simpl in H1. destruct p; simpl.
  - by injection H1 as ->.
  - apply evaluates_on; eauto.
  - apply evaluates_off; eauto.
  - destruct (EventStore.exec bodies n (Emit _ _) _) as [w2|] eqn:E; [|discriminate].
    eapply evaluates_set; [by exists n|eauto].
  - apply evaluates_get; eauto.
  - apply evaluates_update; eauto.
  - apply evaluates_read; eauto.
Qed.

End Facts.
End EventStoreFacts.

Module SetDataFacts.
Import EventStore.

Lemma live_app (a b : SetData) : live (a ++ b) = live a ++ live b.
Proof. apply omap_app. Qed.

Lemma elem_of_live (c : Callback) (es : SetData) : c ∈ live es ↔ Some c ∈ es.
Proof.
  unfold live. rewrite list_elem_of_omap. split.
  - intros ([x|] & Hx & Hid); simpl in Hid; congruence.
  - intros Hc. by exists (Some c).
Qed.

Lemma live_set_delete (cb : Callback) (es : SetData) :
  live (set_delete cb es) = filter (λ c, c ≠ cb) (live es).
Proof.
  induction es as [|[c|] es IH]; simpl; [done| |done].
  change (omap id (set_delete cb es)) with (live (set_delete cb es)).
  change (omap id es) with (live es).
  case_bool_decide as Hc.
  - injection Hc as ->. rewrite filter_cons_False by (intros Hne; by apply Hne). exact IH.
  - simpl. rewrite filter_cons_True by congruence.
    change (omap id (set_delete cb es)) with (live (set_delete cb es)).
    by rewrite IH.
Qed.

Lemma set_delete_absent (cb : Callback) (es : SetData) :
  cb ∉ live es → set_delete cb es = es.
Proof.
  rewrite elem_of_live. intros Hc. unfold set_delete.
  induction es as [|e es IH]; simpl; [done|].
  rewrite not_elem_of_cons in Hc. destruct Hc as [Hne Hc].
  rewrite bool_decide_eq_false_2 by congruence. f_equal. by apply IH.
Qed.

Lemma set_delete_app (cb : Callback) (a b : SetData) :
  set_delete cb (a ++ b) = set_delete cb a ++ set_delete cb b.
Proof. apply fmap_app. Qed.

Lemma length_set_delete (cb : Callback) (es : SetData) :
  length (set_delete cb es) = length es.
Proof. apply length_fmap. Qed.

Lemma live_set_add (cb : Callback) (es : SetData) :
  live (set_add cb es) =
  if bool_decide (cb ∈ live es) then live es else live es ++ [cb].
Proof.
  unfold set_add. rewrite (bool_decide_ext _ _ (elem_of_live cb es)).
  case_bool_decide; [done|]. by rewrite live_app.
Qed.

Lemma set_add_fresh (cb : Callback) (es : SetData) :
  cb ∉ live es → set_add cb es = es ++ [Some cb].
Proof.
  rewrite elem_of_live. intros Hc. unfold set_add.
  by rewrite bool_decide_eq_false_2.
Qed.

Lemma live_set_add_nonempty (cb : Callback) (es : SetData) : live (set_add cb es) ≠ [].
Proof.
  rewrite live_set_add. case_bool_decide as Hc.
  - intros Hnil. rewrite Hnil in Hc. by apply not_elem_of_nil in Hc.
  - by destruct (live es).
Qed.

Lemma NoDup_live_set_add (cb : Callback) (es : SetData) :
  NoDup (live es) → NoDup (live (set_add cb es)).
Proof.
  intros Hnd. rewrite live_set_add. case_bool_decide as Hc; [done|].
  apply NoDup_app. split_and!; [done| |apply NoDup_singleton].
  intros x Hx Hx'. apply list_elem_of_singleton in Hx'. by subst.
Qed.

Lemma NoDup_live_set_delete (cb : Callback) (es : SetData) :
  NoDup (live es) → NoDup (live (set_delete cb es)).
Proof. intros Hnd. rewrite live_set_delete. by apply NoDup_filter. Qed.

End SetDataFacts.

Module StoreOps.
Import EventStore SetDataFacts.

Section Ops.
Context {V : Type}.
Implicit Types s : Store V.

Lemma on_known ev cb s l :
  listeners s !! ev = Some l →
  on ev cb s =
  {| values := values s; listeners := listeners s;
     heap := alter (set_add cb) l (heap s); next := next s |}.
Proof. intros Hl. unfold on. by rewrite Hl, Hl. Qed.

Lemma on_unknown ev cb s :
  listeners s !! ev = None →
  on ev cb s =
  {| values := values s; listeners := <[ev := next s]> (listeners s);
     heap := <[next s := [Some cb]]> (heap s); next := S (next s) |}.
Proof.
  intros Hl. unfold on. rewrite Hl. simpl. rewrite lookup_insert_eq.
  f_equal. by rewrite alter_insert_eq.
Qed.

Lemma off_unknown ev cb s : listeners s !! ev = None → off ev cb s = s.
Proof. intros Hl. unfold off. by rewrite Hl. Qed.

Lemma off_known ev cb s l es :
  listeners s !! ev = Some l → heap s !! l = Some es →
  off ev cb s =
  {| values := values s;
     listeners := if Nat.eqb (set_size (set_delete cb es)) 0
                  then delete ev (listeners s) else listeners s;
     heap := <[l := set_delete cb es]> (heap s); next := next s |}.
Proof.
  intros Hl Hh. unfold off. rewrite Hl. simpl.
  rewrite lookup_alter_eq, Hh. simpl. f_equal.
  apply map_eq. intros j. rewrite lookup_alter, lookup_insert.
  case_decide; [subst; by rewrite Hh|done].
Qed.

Lemma registered_known ev s l es :
  listeners s !! ev = Some l → heap s !! l = Some es → registered s ev = live es.
Proof. intros Hl Hh. unfold registered. by rewrite Hl, Hh. Qed.

Lemma registered_unknown ev s : listeners s !! ev = None → registered s ev = [].
Proof. intros Hl. unfold registered. by rewrite Hl. Qed.

Lemma consistent_createDataStore : consistent (createDataStore (V := V)).
Proof.
  split; simpl.
  - intros ev l Hl. by rewrite lookup_empty in Hl.
  - intros ev1 ev2 l Hl. by rewrite lookup_empty in Hl.
  - intros l _. apply lookup_empty.
  - intros l es Hl. by rewrite lookup_empty in Hl.
Qed.

Lemma consistent_store_value key (v : V) s : consistent s → consistent (store_value key v s).
Proof. intros [? ? ? ?]. by split. Qed.

Lemma consistent_on ev cb s : consistent s → consistent (on ev cb s).
Proof.
  intros [Hentry Hown Hfresh Hnodup].
  destruct (listeners s !! ev) as [l|] eqn:Hl.
  - rewrite (on_known _ _ _ _ Hl).
    destruct (Hentry _ _ Hl) as (es & Hes & Hne).
    split; simpl.
    + intros ev' l' Hl'. rewrite lookup_alter. case_decide as Heq.
      * subst l'. rewrite Hes. simpl. eexists. split; [done|].
        apply live_set_add_nonempty.
      * by apply (Hentry ev').
    + exact Hown.
    + intros l' Hle. rewrite lookup_alter. case_decide as Heq; [|by apply Hfresh].
      subst l'. by rewrite (Hfresh l Hle).
    + intros l' es'. rewrite lookup_alter. case_decide as Heq; [|by apply Hnodup].
      subst l'. rewrite Hes. simpl. intros [= <-].
      apply NoDup_live_set_add. by apply (Hnodup l).
  - rewrite (on_unknown _ _ _ Hl). split; simpl.
    + intros ev' l'. rewrite lookup_insert. case_decide as Heq.
      * intros [= <-]. rewrite lookup_insert_eq. by eexists.
      * intros Hl'. destruct (Hentry _ _ Hl') as (es & Hes & Hne).
        exists es. split; [|done]. rewrite lookup_insert_ne; [done|].
        intros <-. rewrite Hfresh in Hes; [done|lia].
    + assert (Hfree : ∀ e, listeners s !! e = Some (next s) → False).
      { intros e He. destruct (Hentry _ _ He) as (es & Hes & _).
        rewrite Hfresh in Hes; [done|lia]. }
      intros ev1 ev2 l'. rewrite !lookup_insert.
      repeat case_decide; subst; try done.
      * intros [= <-] He. by destruct (Hfree _ He).
      * intros He [= <-]. by destruct (Hfree _ He).
      * apply Hown.
    + intros l' Hle. rewrite lookup_insert_ne by lia. apply Hfresh. lia.
    + intros l' es'. rewrite lookup_insert. case_decide.
      * intros [= <-]. apply NoDup_singleton.
      * apply Hnodup.
Qed.

Lemma consistent_off ev cb s : consistent s → consistent (off ev cb s).
Proof.
  intros [Hentry Hown Hfresh Hnodup].
  destruct (listeners s !! ev) as [l|] eqn:Hl; [|by rewrite off_unknown].
  destruct (Hentry _ _ Hl) as (es & Hes & Hne).
  rewrite (off_known _ _ _ _ _ Hl Hes).
  assert (Hother : ∀ ev' l', ev' ≠ ev → listeners s !! ev' = Some l' →
            ∃ es', <[l := set_delete cb es]> (heap s) !! l' = Some es' ∧ live es' ≠ []).
  { intros ev' l' Hev Hl'. destruct (Hentry _ _ Hl') as (es' & Hes' & Hne').
    exists es'. split; [|done]. rewrite lookup_insert_ne; [done|].
    intros <-. apply Hev. by apply (Hown ev' ev l). }
  split; simpl.
  - intros ev' l'. destruct (Nat.eqb _ 0) eqn:Hsz.
    + rewrite lookup_delete. case_decide; [done|]. by apply Hother.
    + intros Hl'. destruct (decide (ev' = ev)) as [->|Hev]; [|by apply (Hother ev')].
      rewrite Hl in Hl'. injection Hl' as <-. rewrite lookup_insert_eq.
      eexists. split; [done|]. apply Nat.eqb_neq in Hsz. unfold set_size in Hsz.
      intros Hnil. by rewrite Hnil in Hsz.
  - intros ev1 ev2 l'. destruct (Nat.eqb _ 0).
    + rewrite !lookup_delete. repeat case_decide; try done. apply Hown.
    + apply Hown.
  - intros l' Hle. rewrite lookup_insert. case_decide as Heq; [|by apply Hfresh].
    subst l'. by rewrite (Hfresh l Hle) in Hes.
  - intros l' es'. rewrite lookup_insert. case_decide.
    + intros [= <-]. apply NoDup_live_set_delete. by apply (Hnodup l).
    + apply Hnodup.
Qed.

Lemma consistent_no_empty_entry s : consistent s → no_empty_entry s.
Proof.
  intros [Hentry _ _ _] ev l Hl. destruct (Hentry _ _ Hl) as (es & -> & Hne).
  simpl. unfold set_size. destruct (live es); [done|simpl; lia].
Qed.

Lemma registered_NoDup ev s : consistent s → NoDup (registered s ev).
Proof.
  intros [Hentry _ _ Hnodup]. unfold registered.
  destruct (listeners s !! ev) as [l|] eqn:Hl; [|apply NoDup_nil_2].
  destruct (Hentry _ _ Hl) as (es & Hes & _). rewrite Hes. simpl. by apply (Hnodup l).
Qed.

Lemma registered_on ev cb s :
  consistent s →
  registered (on ev cb s) ev =
  if bool_decide (cb ∈ registered s ev) then registered s ev else registered s ev ++ [cb].
Proof.
  intros [Hentry _ _ _].
  destruct (listeners s !! ev) as [l|] eqn:Hl.
  - destruct (Hentry _ _ Hl) as (es & Hes & _).
    rewrite (registered_known _ _ _ _ Hl Hes), (on_known _ _ _ _ Hl).
    unfold registered. simpl. rewrite Hl, lookup_alter_eq, Hes. simpl.
    apply live_set_add.
  - rewrite (registered_unknown _ _ Hl), (on_unknown _ _ _ Hl).
    unfold registered. simpl. by rewrite !lookup_insert_eq.
Qed.

Lemma registered_on_other ev ev' cb s :
  consistent s → ev' ≠ ev → registered (on ev cb s) ev' = registered s ev'.
Proof.
  intros [Hentry Hown Hfresh _] Hne.
  destruct (listeners s !! ev) as [l|] eqn:Hl.
  - rewrite (on_known _ _ _ _ Hl). unfold registered. simpl.
    destruct (listeners s !! ev') as [l'|] eqn:Hl'; [|done].
    rewrite lookup_alter_ne; [done|]. intros <-. apply Hne. by apply (Hown ev' ev l).
  - rewrite (on_unknown _ _ _ Hl). unfold registered. simpl.
    rewrite lookup_insert_ne by done.
    destruct (listeners s !! ev') as [l'|] eqn:Hl'; [|done].
    rewrite lookup_insert_ne; [done|]. intros <-.
    destruct (Hentry _ _ Hl') as (es & Hes & _). rewrite Hfresh in Hes; [done|lia].
Qed.

Lemma registered_off ev cb s :
  consistent s →
  registered (off ev cb s) ev = filter (λ c, c ≠ cb) (registered s ev).
Proof.
  intros Hc. destruct (listeners s !! ev) as [l|] eqn:Hl.
  - destruct (consistent_entry _ Hc _ _ Hl) as (es & Hes & _).
    rewrite (registered_known _ _ _ _ Hl Hes), (off_known _ _ _ _ _ Hl Hes).
    rewrite <- live_set_delete. unfold registered, set_size. simpl.
    destruct (length (live (set_delete cb es))) eqn:Hlen; simpl.
    + rewrite lookup_delete_eq. symmetry. by apply length_zero_iff_nil.
    + by rewrite Hl, lookup_insert_eq.
  - by rewrite (off_unknown _ _ _ Hl), (registered_unknown _ _ Hl).
Qed.

Lemma registered_off_other ev ev' cb s :
  consistent s → ev' ≠ ev → registered (off ev cb s) ev' = registered s ev'.
Proof.
  intros Hc Hne. destruct (listeners s !! ev) as [l|] eqn:Hl;
    [|by rewrite (off_unknown _ _ _ Hl)].
  destruct (consistent_entry _ Hc _ _ Hl) as (es & Hes & _).
  rewrite (off_known _ _ _ _ _ Hl Hes). unfold registered. simpl.
  assert (Hev' : (if Nat.eqb (set_size (set_delete cb es)) 0
                  then delete ev (listeners s) else listeners s) !! ev'
                 = listeners s !! ev').
  { destruct (Nat.eqb _ 0); [by rewrite lookup_delete_ne|done]. }
  rewrite Hev'. destruct (listeners s !! ev') as [l'|] eqn:Hl'; [|done].
  rewrite lookup_insert_ne; [done|].
  intros <-. apply Hne. by apply (consistent_own _ Hc ev' ev l).
Qed.

(** The registrations after calls of [on] and [off] are in
    registration order. *)
Lemma consistent_registrations rs : ∀ s,
  consistent s → consistent (registrations rs s).
Proof.
  induction rs as [|[ev cb|ev cb] rs IH]; intros s Hc; [done| |]; apply IH.
  - by apply consistent_on.
  - by apply consistent_off.
Qed.

Lemma registered_registrations ev rs : ∀ s,
  consistent s →
  registered (registrations rs s) ev = registration_order ev rs (registered s ev).
Proof.
  induction rs as [|[ev' cb|ev' cb] rs IH]; intros s Hc; [done| |].
  - change (registrations (Register ev' cb :: rs) s)
      with (registrations rs (on ev' cb s)).
    rewrite IH by (by apply consistent_on). simpl. f_equal.
    case_bool_decide as Hev.
    + subst ev'. by apply registered_on.
    + by apply registered_on_other.
  - change (registrations (Remove ev' cb :: rs) s)
      with (registrations rs (off ev' cb s)).
    rewrite IH by (by apply consistent_off). simpl. f_equal.
    case_bool_decide as Hev.
    + subst ev'. by apply registered_off.
    + by apply registered_off_other.
Qed.

End Ops.
End StoreOps.

Module Emission.
Import EventStore EventStoreFacts SetDataFacts StoreOps.

Section Emission.
Context {V H : Type}.
Variable bodies : Callback → V → Prog V H.

Local Abbreviation exec := (exec bodies).
Local Abbreviation evaluates := (evaluates bodies).

(** Whatever the callbacks do, the store stays consistent. *)
Lemma exec_consistent fuel : ∀ (t : Activity V H) (w w' : World V H),
  exec fuel t w = Some w' → consistent (store w) → consistent (store w').
Proof.
  induction fuel as [|n IH]; intros t w w' Hex Hc; [discriminate|].
  simpl in Hex. destruct t as [p | ev v | l i v].
  - destruct p.
    + by injection Hex as <-.
    + apply (IH _ _ _ Hex). by apply consistent_on.
    + apply (IH _ _ _ Hex). by apply consistent_off.
    + destruct (EventStore.exec bodies n (Emit _ _) _) as [w2|] eqn:E; [|discriminate].
      apply (IH _ _ _ Hex). apply (IH _ _ _ E). by apply consistent_store_value.
    + by apply (IH _ _ _ Hex).
    + by apply (IH _ _ _ Hex).
    + by apply (IH _ _ _ Hex).
  - destruct (listeners _ !! _); [by apply (IH _ _ _ Hex)|by injection Hex as <-].
  - destruct (_ !! i) as [[cb|]|].
    + destruct (EventStore.exec bodies n (Run _) _) as [w1|] eqn:E; [|discriminate].
      apply (IH _ _ _ Hex). by apply (IH _ _ _ E).
    + by apply (IH _ _ _ Hex).
    + by injection Hex as <-.
Qed.

(** A passive program terminates and leaves the store and the traces
    alone. *)
Lemma passive_evaluates_host p :
  passive p → ∀ w : World V H,
    evaluates (Run p) w
      {| store := store w; host := host_after (store w) p (host w);
         calls := calls w; writes := writes w |}.
Proof.
  induction 1 as [|key k _ IH|f k _ IH|k _ IH]; intros w; simpl.
  - destruct w. apply evaluates_done.
  - apply evaluates_get. apply IH.
  - apply evaluates_update. apply (IH (with_host f w)).
  - apply evaluates_read. apply IH.
Qed.

Lemma passive_evaluates p :
  passive p → ∀ w : World V H, ∃ h',
    evaluates (Run p) w
      {| store := store w; host := h'; calls := calls w; writes := writes w |}.
Proof. intros Hp w. eexists. by apply passive_evaluates_host. Qed.

(** A callback whose one call is [on(ev, cb)], or [off(ev, cb)],
    terminates, and that call is all that happens to the store. *)
Lemma only_registers_evaluates ev cb p :
  only_registers ev cb p → ∀ w : World V H, ∃ h',
    evaluates (Run p) w
      {| store := on ev cb (store w); host := h'; calls := calls w; writes := writes w |}.
Proof.
  induction 1 as [k Hk|key k _ IH|f k _ IH|k _ IH]; intros w.
  - destruct (passive_evaluates k Hk (with_store (on ev cb) w)) as [h' Hk'].
    exists h'. by apply evaluates_on.
  - destruct (IH (get key (store w)) w) as [h' Hk']. exists h'. by apply evaluates_get.
  - destruct (IH (with_host f w)) as [h' Hk']. exists h'. by apply evaluates_update.
  - destruct (IH (host w) w) as [h' Hk']. exists h'. by apply evaluates_read.
Qed.

Lemma only_removes_evaluates ev cb p :
  only_removes ev cb p → ∀ w : World V H, ∃ h',
    evaluates (Run p) w
      {| store := off ev cb (store w); host := h'; calls := calls w; writes := writes w |}.
Proof.
  induction 1 as [k Hk|key k _ IH|f k _ IH|k _ IH]; intros w.
  - destruct (passive_evaluates k Hk (with_store (off ev cb) w)) as [h' Hk'].
    exists h'. by apply evaluates_off.
  - destruct (IH (get key (store w)) w) as [h' Hk']. exists h'. by apply evaluates_get.
  - destruct (IH (with_host f w)) as [h' Hk']. exists h'. by apply evaluates_update.
  - destruct (IH (host w) w) as [h' Hk']. exists h'. by apply evaluates_read.
Qed.

(** [forEach] over a stretch [seg] of entries whose callbacks are
    passive: every live entry is called once, in order, and the loop
    goes on behind the stretch. *)
Lemma foreach_passive_host l v seg : ∀ pre rest (w : World V H),
  heap (store w) !! l = Some (pre ++ seg ++ rest) →
  (∀ c, c ∈ live seg → passive (bodies c v)) →
  ∀ w',
    evaluates (ForEach l (length pre + length seg) v)
      {| store := store w; host := hosts_after bodies (store w) v (live seg) (host w);
         calls := calls w ++ ((λ c, (c, v)) <$> live seg); writes := writes w |} w' →
    evaluates (ForEach l (length pre) v) w w'.
Proof.
  induction seg as [|e seg IH]; intros pre rest w Hh Hp w'.
  - simpl. rewrite Nat.add_0_r, app_nil_r. by destruct w.
  - assert (Hh' : heap (store w) !! l = Some ((pre ++ [e]) ++ seg ++ rest))
      by by rewrite <- app_assoc.
    assert (Hi : (pre ++ e :: seg ++ rest) !! length pre = Some e)
      by by apply list_lookup_middle.
    assert (Hlen : length (pre ++ [e]) + length seg = length pre + length (e :: seg))
      by (rewrite length_app; simpl; lia).
    assert (Hlen' : length (pre ++ [e]) = S (length pre))
      by (rewrite length_app; simpl; lia).
    destruct e as [c|]; intros Hw'.
    + pose proof (passive_evaluates_host _ (Hp c ltac:(simpl; left)) (record_call c v w))
        as Hbody.
      simpl in Hbody.
      eapply evaluates_foreach_call; [exact Hh|exact Hi|exact Hbody|].
      rewrite <- Hlen'. apply (IH (pre ++ [Some c]) rest); [exact Hh'| |].
      { intros c' Hc'. apply Hp. simpl. by right. }
      simpl. rewrite Hlen. by rewrite <- app_assoc.
    + eapply evaluates_foreach_empty; [exact Hh|exact Hi|].
      rewrite <- Hlen'. apply (IH (pre ++ [None]) rest); [exact Hh'| |].
      { intros c' Hc'. by apply Hp. }
      by rewrite Hlen.
Qed.

Lemma foreach_passive l v seg pre rest (w : World V H) :
  heap (store w) !! l = Some (pre ++ seg ++ rest) →
  (∀ c, c ∈ live seg → passive (bodies c v)) →
  ∃ h', ∀ w',
    evaluates (ForEach l (length pre + length seg) v)
      {| store := store w; host := h';
         calls := calls w ++ ((λ c, (c, v)) <$> live seg); writes := writes w |} w' →
    evaluates (ForEach l (length pre) v) w w'.
Proof.
  intros Hh Hp. eexists. intros w'.
  by apply (foreach_passive_host l v seg pre rest).
Qed.

(** The same to the end of the entries. *)
Lemma foreach_passive_end_host l v seg pre (w : World V H) :
  heap (store w) !! l = Some (pre ++ seg) →
  (∀ c, c ∈ live seg → passive (bodies c v)) →
  evaluates (ForEach l (length pre) v) w
    {| store := store w; host := hosts_after bodies (store w) v (live seg) (host w);
       calls := calls w ++ ((λ c, (c, v)) <$> live seg); writes := writes w |}.
Proof.
  intros Hh Hp.
  apply (foreach_passive_host l v seg pre []); [by rewrite app_nil_r|done|].
  eapply evaluates_foreach_end; [exact Hh|].
  apply lookup_ge_None. rewrite length_app. lia.
Qed.

Lemma foreach_passive_end l v seg pre (w : World V H) :
  heap (store w) !! l = Some (pre ++ seg) →
  (∀ c, c ∈ live seg → passive (bodies c v)) →
  ∃ h',
    evaluates (ForEach l (length pre) v) w
      {| store := store w; host := h';
         calls := calls w ++ ((λ c, (c, v)) <$> live seg); writes := writes w |}.
Proof. intros Hh Hp. eexists. by apply foreach_passive_end_host. Qed.

Lemma invoked_since_app (w w' : World V H) cs :
  calls w' = calls w ++ cs → invoked_since w w' = cs.
Proof. unfold invoked_since. intros ->. by rewrite drop_app_length. Qed.

Lemma written_since_app (w w' : World V H) ws :
  writes w' = writes w ++ ws → written_since w w' = ws.
Proof. unfold written_since. intros ->. by rewrite drop_app_length. Qed.

(** [set] when the callbacks registered for the key's event are passive. *)
Lemma set_passive_host key v (w : World V H) :
  consistent (store w) →
  (∀ c, c ∈ registered (store w) (set_event key) → passive (bodies c v)) →
  evaluates (Run (CallSet key v Done)) w
    {| store := store_value key v (store w);
       host := hosts_after bodies (store_value key v (store w)) v
                 (registered (store w) (set_event key)) (host w);
       calls := calls w ++ ((λ c, (c, v)) <$> registered (store w) (set_event key));
       writes := writes w ++ [(key, v)] |}.
Proof.
  intros Hc Hp.
  pose (w1 := record_write key v (with_store (store_value key v) w)).
  destruct (listeners (store w) !! set_event key) as [l|] eqn:Hl.
  - destruct (consistent_entry _ Hc _ _ Hl) as (es & Hes & _).
    rewrite (registered_known _ _ _ _ Hl Hes) in *.
    eapply evaluates_set_emit; [exact Hl| |apply evaluates_done].
    by apply (foreach_passive_end_host l v es [] w1).
  - rewrite (registered_unknown _ _ Hl) in *. simpl. rewrite app_nil_r.
    apply evaluates_set_silent; [exact Hl|apply evaluates_done].
Qed.

Lemma set_passive key v (w : World V H) :
  consistent (store w) →
  (∀ c, c ∈ registered (store w) (set_event key) → passive (bodies c v)) →
  ∃ h', evaluates (Run (CallSet key v Done)) w
    {| store := store_value key v (store w); host := h';
       calls := calls w ++ ((λ c, (c, v)) <$> registered (store w) (set_event key));
       writes := writes w ++ [(key, v)] |}.
Proof. intros Hc Hp. eexists. by apply set_passive_host. Qed.

(** A script whose callbacks are all passive runs to its end. *)
Lemma script_terminates (ops : list (Op V)) :
  (∀ c v, passive (bodies c v)) →
  ∀ w : World V H, consistent (store w) → ∃ w', evaluates (Run (script ops)) w w'.
Proof.
  intros Hp. induction ops as [|[ev cb|ev cb|key v] ops IH]; intros w Hc; simpl.
  - exists w. apply evaluates_done.
  - destruct (IH (with_store (on ev cb) w)) as [w' Hw']; [by apply consistent_on|].
    exists w'. by apply evaluates_on.
  - destruct (IH (with_store (off ev cb) w)) as [w' Hw']; [by apply consistent_off|].
    exists w'. by apply evaluates_off.
  - destruct (set_passive key v w Hc) as [h1 Hset]; [by intros|].
    destruct (IH _ (consistent_store_value key v _ Hc : consistent (store
      {| store := store_value key v (store w); host := h1;
         calls := calls w ++ ((λ c, (c, v)) <$> registered (store w) (set_event key));
         writes := writes w ++ [(key, v)] |}))) as [w' Hw'].
    exists w'. apply (evaluates_seq bodies (CallSet key v Done) _ _ _ _ Hset Hw').
Qed.

End Emission.
End Emission.

(** ** The autoplay clock *)

Module ClockFacts.
Import EventStore EventStoreFacts StoreOps Emission RenderSink JSNumber Timeline.

Local Abbreviation evaluates := (evaluates bodies).

Lemma wired_wired_store : wired wired_store.
Proof.
  split.
  - apply consistent_on, consistent_createDataStore.
  - vm_compute. reflexivity.
Qed.

Lemma wired_store_value key v s : wired s → wired (store_value key v s).
Proof. intros [Hc Hr]. split; [by apply consistent_store_value|exact Hr]. Qed.

Lemma bodies_passive c v : passive (bodies c v).
Proof. unfold bodies. destruct (Nat.eqb c timelineHandler); repeat constructor. Qed.

(** [data.set('timeline.uTime', v)]: one call of [timelineHandler]. *)
Lemma set_uTime v (w : World num State) :
  wired (store w) →
  evaluates (Run (CallSet uTime v Done)) w
    {| store := store_value uTime v (store w);
       host := applyTimelineValue v (host w);
       calls := calls w ++ [(timelineHandler, v)];
       writes := writes w ++ [(uTime, v)] |}.
Proof.
  intros [Hc Hr].
  pose proof (set_passive_host bodies uTime v w Hc (λ c _, bodies_passive c v)) as Hset.
  by rewrite Hr in Hset.
Qed.

Lemma onUpdate_evaluates dt (w : World num State) :
  wired (store w) → evaluates (Run (onUpdate dt)) w (after_update dt w).
Proof.
  intros Hw. unfold onUpdate, after_update. apply evaluates_read.
  destruct (isDragging (host w) || isPaused (host w)) eqn:Hidle.
  - apply evaluates_update, evaluates_done.
  - apply evaluates_update, evaluates_read. simpl.
    destruct (fge _ AUTOPLAY_INTERVAL) eqn:Hge; [|apply evaluates_done].
    apply evaluates_update, evaluates_read. simpl.
    fold (nextValue (currentTimelineValue (host w))).
    exact (set_uTime (nextValue (currentTimelineValue (host w)))
             (with_host (λ st, set_autoplayAccumulator
                           (fsub (autoplayAccumulator st) AUTOPLAY_INTERVAL) st)
                (with_host (λ st, set_autoplayAccumulator
                           (fadd (autoplayAccumulator st) (fmul dt RATE)) st) w)) Hw).
Qed.

Lemma after_update_wired dt (w : World num State) :
  wired (store w) → wired (store (after_update dt w)).
Proof.
  intros Hw. unfold after_update.
  destruct (_ || _); [done|]. destruct (fge _ _); [|done].
  by apply wired_store_value.
Qed.

Lemma frames_evaluates dts : ∀ w : World num State,
  wired (store w) → evaluates (Run (frames dts)) w (after_frames dts w).
Proof.
  induction dts as [|dt dts IH]; intros w Hw.
  - apply evaluates_done.
  - change (frames (dt :: dts)) with (seq (onUpdate dt) (frames dts)).
    change (after_frames (dt :: dts) w) with (after_frames dts (after_update dt w)).
    eapply evaluates_seq; [by apply onUpdate_evaluates|].
    apply IH. by apply after_update_wired.
Qed.

Lemma after_frames_app dts dts' (w : World num State) :
  after_frames (dts ++ dts') w = after_frames dts' (after_frames dts w).
Proof. apply fold_left_app. Qed.

(** Frames while dragging or paused: nothing is written. *)
Lemma after_frames_idle dts : ∀ w : World num State,
  isDragging (host w) || isPaused (host w) = true →
  dts ≠ [] →
  after_frames dts w = with_host (set_autoplayAccumulator (of_Z 0)) w.
Proof.
  induction dts as [|dt dts IH]; intros w Hidle Hne; [done|].
  change (after_frames (dt :: dts) w) with (after_frames dts (after_update dt w)).
  assert (E : after_update dt w = with_host (set_autoplayAccumulator (of_Z 0)) w)
    by (unfold after_update; by rewrite Hidle).
  rewrite E. destruct dts as [|dt' dts]; [done|].
  rewrite IH; [by destruct w|exact Hidle|done].
Qed.

(** Frames that do not bring the accumulator to [STEP]: they add up. *)
Lemma after_frames_below dts : ∀ w : World num State,
  isDragging (host w) || isPaused (host w) = false →
  (∀ n, 0 < n ≤ length dts →
     fge (accumulate (autoplayAccumulator (host w)) (take n dts)) AUTOPLAY_INTERVAL = false) →
  after_frames dts w =
  with_host (set_autoplayAccumulator (accumulate (autoplayAccumulator (host w)) dts)) w.
Proof.
  induction dts as [|dt dts IH]; intros w Hplay Hbelow.
  - by destruct w as [s [] c ws].
  - change (after_frames (dt :: dts) w) with (after_frames dts (after_update dt w)).
    assert (E : after_update dt w =
      with_host (set_autoplayAccumulator
                   (fadd (autoplayAccumulator (host w)) (fmul dt RATE))) w).
    { unfold after_update. rewrite Hplay.
      pose proof (Hbelow 1 ltac:(simpl; lia)) as H1.
      change (fge (fadd (autoplayAccumulator (host w)) (fmul dt RATE))
                AUTOPLAY_INTERVAL = false) in H1.
      by rewrite H1. }
    rewrite E, IH.
    + by destruct w.
    + exact Hplay.
    + intros n Hn. apply (Hbelow (S n)). simpl. lia.
Qed.

End ClockFacts.

(** ** Rounding in binary64 *)

Module Rounding.
Import JSNumber.

Local Open Scope Z_scope.

Lemma fexp_eq z : fexp prec emax z = Z.max (z - 53) (-1074).
Proof. reflexivity. Qed.

Lemma digits2_pos_bounds p :
  2 ^ (Zpos (digits2_pos p) - 1) <= Zpos p < 2 ^ Zpos (digits2_pos p).
Proof.
  induction p as [p IH|p IH|]; simpl digits2_pos.
  - rewrite Pos2Z.inj_succ.
    replace (Z.succ (Zpos (digits2_pos p)) - 1) with (Z.succ (Zpos (digits2_pos p) - 1)) by lia.
    rewrite !Z.pow_succ_r by lia. lia.
  - rewrite Pos2Z.inj_succ.
    replace (Z.succ (Zpos (digits2_pos p)) - 1) with (Z.succ (Zpos (digits2_pos p) - 1)) by lia.
    rewrite !Z.pow_succ_r by lia. lia.
  - simpl. lia.
Qed.

Lemma Zdigits2_bounds m :
  0 < m → 2 ^ (Zdigits2 m - 1) <= m < 2 ^ Zdigits2 m.
Proof. destruct m as [|p|p]; try lia. intros _. apply digits2_pos_bounds. Qed.

Lemma Zdigits2_pos m : 0 < m → 0 < Zdigits2 m.
Proof. destruct m; simpl; lia. Qed.

(** A number below [2 ^ d] has at most [d] digits, one from [2 ^ d] on
    has more. *)
Lemma Zdigits2_le m d : 0 < m → 0 <= d → m < 2 ^ d → Zdigits2 m <= d.
Proof.
  intros Hm Hd Hlt. pose proof (Zdigits2_bounds m Hm) as [Hlo _].
  destruct (Z_le_gt_dec (Zdigits2 m) d) as [|Hgt]; [done|].
  assert (2 ^ d <= 2 ^ (Zdigits2 m - 1)) by (apply Z.pow_le_mono_r; lia). lia.
Qed.

Lemma Zdigits2_gt m d : 0 <= d → 2 ^ d <= m → d < Zdigits2 m.
Proof.
  intros Hd Hle. assert (Hm : 0 < m) by (pose proof (Z.pow_pos_nonneg 2 d); lia).
  pose proof (Zdigits2_bounds m Hm) as [_ Hhi].
  destruct (Z_lt_ge_dec d (Zdigits2 m)) as [|Hge]; [done|].
  assert (2 ^ Zdigits2 m <= 2 ^ d) by (apply Z.pow_le_mono_r; lia). lia.
Qed.

(** [shr_1] halves the mantissa. *)
Lemma shr_1_m mrs : 0 <= shr_m mrs → shr_m (shr_1 mrs) = shr_m mrs / 2.
Proof.
  destruct mrs as [m r s]. simpl. intros Hm.
  destruct m as [|[p|p|]|p]; simpl; try lia; try reflexivity.
  - rewrite Pos2Z.inj_xI. apply (Z.div_unique_pos _ _ _ 1); lia.
  - rewrite Pos2Z.inj_xO. apply (Z.div_unique_pos _ _ _ 0); lia.
Qed.

Lemma iter_pos_nat {A} (f : A → A) p : ∀ x,
  SpecFloat.iter_pos f p x = Nat.iter (Pos.to_nat p) f x.
Proof.
  assert (Hadd : ∀ n m x, Nat.iter (n + m) f x = Nat.iter n f (Nat.iter m f x)).
  { intros n m x. induction n; simpl; congruence. }
  assert (Hcomm : ∀ n x, Nat.iter n f (f x) = f (Nat.iter n f x)).
  { intros n x. induction n; simpl; congruence. }
  induction p as [p IH|p IH|]; intros x; simpl SpecFloat.iter_pos.
  - rewrite !IH, Pos2Nat.inj_xI. simpl.
    replace (Pos.to_nat p + (Pos.to_nat p + 0))%nat with (Pos.to_nat p + Pos.to_nat p)%nat by lia.
    by rewrite Hadd, <- !Hcomm.
  - rewrite !IH, Pos2Nat.inj_xO. simpl.
    replace (Pos.to_nat p + (Pos.to_nat p + 0))%nat with (Pos.to_nat p + Pos.to_nat p)%nat by lia.
    by rewrite Hadd.
  - reflexivity.
Qed.

Lemma iter_shr_1_m n : ∀ mrs, 0 <= shr_m mrs →
  shr_m (Nat.iter n shr_1 mrs) = shr_m mrs / 2 ^ Z.of_nat n.
Proof.
  induction n as [|n IH]; intros mrs Hm.
  - simpl. by rewrite Z.div_1_r.
  - rewrite Nat2Z.inj_succ, Z.pow_succ_r by lia.
    simpl Nat.iter. rewrite shr_1_m.
    + rewrite IH by done. rewrite Z.div_div by (try apply Z.pow_pos_nonneg; lia).
      f_equal. lia.
    + rewrite IH by done. apply Z.div_pos; [done|]. apply Z.pow_pos_nonneg; lia.
Qed.

(** [shr] divides the mantissa by [2 ^ n] and adds [n] to the exponent. *)
Lemma shr_m_e mrs e n : 0 <= shr_m mrs → 0 <= n →
  shr_m (fst (shr mrs e n)) = shr_m mrs / 2 ^ n ∧ snd (shr mrs e n) = e + n.
Proof.
  intros Hm Hn. destruct n as [|p|p]; [| |lia]; simpl.
  - split; [by rewrite Z.div_1_r|lia].
  - split; [|done]. rewrite iter_pos_nat, iter_shr_1_m by done.
    by rewrite positive_nat_Z.
Qed.

Lemma shr_nonpos mrs e n : n <= 0 → shr mrs e n = (mrs, e).
Proof. destruct n; try lia; reflexivity. Qed.

Lemma shr_m_record_of_loc m l : shr_m (shr_record_of_loc m l) = m.
Proof. by destruct l as [|[]]. Qed.

Lemma round_nearest_even_bounds m l :
  m <= round_nearest_even m l <= m + 1.
Proof. destruct l as [|[]]; simpl; try lia. destruct (Z.even m); lia. Qed.

(** What [bounded] says of a mantissa and an exponent: at most 53 digits,
    an exponent in range, and exactly 53 digits unless the exponent is
    the least one (a subnormal number). *)
Lemma bounded_inv m e :
  bounded prec emax m e = true →
  Zpos m < 2 ^ 53 ∧ -1074 <= e <= 971 ∧ (e = -1074 ∨ 2 ^ 52 <= Zpos m).
Proof.
  unfold bounded, canonical_mantissa. rewrite andb_true_iff, Z.eqb_eq, Z.leb_le.
  rewrite fexp_eq. change (emax - prec) with 971. intros [Hc He].
  pose proof (digits2_pos_bounds m) as [Hlo Hhi].
  assert (Hd : Zpos (digits2_pos m) <= 53) by lia.
  split_and!; try lia.
  - assert (2 ^ Zpos (digits2_pos m) <= 2 ^ 53) by (apply Z.pow_le_mono_r; lia). lia.
  - destruct (Z.eq_dec e (-1074)) as [|Hne]; [by left|right].
    assert (Zpos (digits2_pos m) = 53) as Hd53 by lia.
    rewrite Hd53 in Hlo. exact Hlo.
Qed.

Lemma bounded_intro m e :
  0 < m < 2 ^ 53 → -1074 <= e <= 971 → (e = -1074 ∨ 2 ^ 52 <= m) →
  ∃ p, m = Zpos p ∧ bounded prec emax p e = true.
Proof.
  intros [Hm0 Hm] He Hn. destruct m as [|p|p]; try lia. exists p. split; [done|].
  unfold bounded, canonical_mantissa. rewrite andb_true_iff, Z.eqb_eq, Z.leb_le.
  rewrite fexp_eq. change (emax - prec) with 971. split; [|lia].
  change (Zpos (digits2_pos p)) with (Zdigits2 (Zpos p)).
  pose proof (Zdigits2_le (Zpos p) 53 Hm0 ltac:(lia) Hm) as Hd.
  destruct Hn as [->|Hn]; [lia|].
  pose proof (Zdigits2_gt (Zpos p) 52 ltac:(lia) Hn). lia.
Qed.

(** The order of two positive binary64 numbers, read off their exponents
    and mantissas. *)
Lemma SFleb_finite m e M E :
  e < E ∨ (e = E ∧ Zpos m <= Zpos M) →
  SFleb (S754_finite false m e) (S754_finite false M E) = true.
Proof.
  unfold SFleb, SFcompare. intros [Hlt|[-> Hle]].
  - by rewrite (proj2 (Z.compare_lt_iff e E) Hlt).
  - rewrite Z.compare_refl. change (Pos.compare_cont Eq m M) with (Pos.compare m M).
    destruct (Pos.compare_spec m M); try done. lia.
Qed.

Lemma SFleb_finite_inv m e M E :
  SFleb (S754_finite false m e) (S754_finite false M E) = true →
  e < E ∨ (e = E ∧ Zpos m <= Zpos M).
Proof.
  unfold SFleb, SFcompare. destruct (Z.compare_spec e E) as [->|Hlt|Hgt]; [|by left|done].
  change (Pos.compare_cont Eq m M) with (Pos.compare m M).
  destruct (Pos.compare_spec m M); try done; intros _; right; lia.
Qed.

(** Rounding does not cross a binary64 number: when the value to round,
    which lies below [(mx + 1) * 2 ^ ex], is at most the number
    [M * 2 ^ E], so is the rounded value. *)
Lemma binary_round_aux_le mx ex lx M E :
  0 <= mx → -1074 <= ex → ex <= fexp prec emax (Zdigits2 mx + ex) →
  bounded prec emax M E = true →
  (mx + 1) * 2 ^ (ex + 1074) <= Zpos M * 2 ^ (E + 1074) →
  binary_round_aux prec emax false mx ex lx = S754_zero false ∨
  ∃ m e, binary_round_aux prec emax false mx ex lx = S754_finite false m e ∧
         bounded prec emax m e = true ∧
         SFleb (S754_finite false m e) (S754_finite false M E) = true.
Proof.
  intros Hmx Hex Hfexp HME Hle.
  destruct (bounded_inv _ _ HME) as (HM & HE & _).
  rewrite fexp_eq in Hfexp.
  set (D := Zdigits2 mx) in *.
  set (e1 := Z.max (D + ex - 53) (-1074)).
  set (n := e1 - ex).
  assert (Hn : 0 <= n) by (unfold n, e1; lia).
  set (m1 := mx / 2 ^ n).
  assert (Hpn : 0 < 2 ^ n) by (apply Z.pow_pos_nonneg; lia).
  assert (Hm1 : 0 <= m1) by (apply Z.div_pos; lia).
  assert (Hm1le : m1 * 2 ^ n <= mx)
    by (unfold m1; rewrite Z.mul_comm; apply Z.mul_div_le; lia).
  (* the mantissa has at most 53 digits *)
  assert (F1 : m1 < 2 ^ 53).
  { destruct (Z.eq_dec mx 0) as [->|Hne]; [unfold m1; by rewrite Z.div_0_l by lia|].
    pose proof (Zdigits2_bounds mx ltac:(lia)) as [_ Hhi]. fold D in Hhi.
    pose proof (Zdigits2_pos mx ltac:(lia)) as HD. fold D in HD.
    apply Z.div_lt_upper_bound; [done|].
    rewrite <- Z.pow_add_r by lia.
    assert (2 ^ D <= 2 ^ (n + 53)) by (apply Z.pow_le_mono_r; unfold n, e1; lia). lia. }
  (* and exactly 53 unless the exponent is the least one *)
  assert (F2 : e1 = -1074 ∨ 2 ^ 52 <= m1).
  { destruct (Z.eq_dec e1 (-1074)) as [|Hne]; [by left|right].
    assert (He1 : e1 = D + ex - 53) by (unfold e1 in *; lia).
    destruct (Z.eq_dec mx 0) as [->|Hmx0]; [unfold D in *; simpl in *; lia|].
    pose proof (Zdigits2_bounds mx ltac:(lia)) as [Hlo _]. fold D in Hlo.
    apply Z.div_le_lower_bound; [done|].
    rewrite <- Z.pow_add_r by lia.
    replace (n + 52) with (D - 1) by (unfold n; lia). exact Hlo. }
  set (a := ex + 1074) in *.
  set (b := E + 1074) in *.
  assert (Ha : 0 <= a) by (unfold a; lia).
  assert (Hb : 0 <= b) by (unfold b; lia).
  assert (Hpa : 0 < 2 ^ a) by (apply Z.pow_pos_nonneg; lia).
  (* the bound is on the grid of the rounded value *)
  assert (F3 : a + n <= b).
  { destruct (Z_le_gt_dec (a + n) b) as [|Hgt]; [done|exfalso].
    destruct F2 as [F2|F2]; [unfold n, a, b in *; lia|].
    assert (2 ^ (53 + b) <= 2 ^ (52 + (n + a))) by (apply Z.pow_le_mono_r; lia).
    rewrite !Z.pow_add_r in H by lia.
    assert (Zpos M * 2 ^ b < 2 ^ 53 * 2 ^ b)
      by (apply Z.mul_lt_mono_pos_r; [apply Z.pow_pos_nonneg|]; lia).
    assert (2 ^ 52 * (2 ^ n * 2 ^ a) <= m1 * (2 ^ n * 2 ^ a))
      by (apply Z.mul_le_mono_nonneg_r; nia).
    nia. }
  assert (F4 : (m1 + 1) * 2 ^ (a + n) <= Zpos M * 2 ^ b).
  { replace b with ((b - a - n) + (a + n)) by lia.
    rewrite (Z.pow_add_r 2 (b - a - n)) by lia.
    rewrite Z.mul_assoc. apply Z.mul_le_mono_nonneg_r; [apply Z.pow_nonneg; lia|].
    assert (m1 < Zpos M * 2 ^ (b - a - n)); [|lia].
    apply Z.div_lt_upper_bound; [done|].
    assert (Hsplit : Zpos M * 2 ^ b = (2 ^ n * (Zpos M * 2 ^ (b - a - n))) * 2 ^ a).
    { replace b with ((b - a - n) + n + a) at 1 by lia.
      rewrite !Z.pow_add_r by lia. ring. }
    rewrite Hsplit in Hle.
    apply Z.mul_le_mono_pos_r in Hle; [lia|done]. }
  (* the two shifts of [binary_round_aux] *)
  unfold binary_round_aux, shr_fexp. rewrite fexp_eq. fold D e1 n.
  destruct (shr (shr_record_of_loc mx lx) ex n) as [mrs' e'] eqn:Hshr.
  pose proof (shr_m_e (shr_record_of_loc mx lx) ex n) as Hs.
  rewrite shr_m_record_of_loc, Hshr in Hs. simpl in Hs.
  destruct (Hs Hmx Hn) as [Hmrs' He']. fold m1 in Hmrs'.
  replace (ex + n) with e1 in He' by (unfold n; lia). subst e'.
  rewrite Hmrs'.
  pose proof (round_nearest_even_bounds m1 (loc_of_shr_record mrs')) as Hr.
  set (m1' := round_nearest_even m1 (loc_of_shr_record mrs')) in *.
  assert (He1 : -1074 <= e1) by (unfold e1; lia).
  assert (He1a : e1 + 1074 = a + n) by (unfold n, a; lia).
  assert (Hpan : 0 < 2 ^ (a + n)) by (apply Z.pow_pos_nonneg; lia).
  rewrite fexp_eq.
  destruct (Z.eq_dec m1' 0) as [Hz|Hnz].
  - (* rounded to zero *)
    left. rewrite Hz. simpl Zdigits2.
    rewrite shr_nonpos by lia. reflexivity.
  - destruct (Z_lt_ge_dec m1' (2 ^ 53)) as [Hlt|Hge].
    + (* no carry *)
      right.
      pose proof (Zdigits2_le m1' 53 ltac:(lia) ltac:(lia) Hlt) as HD'.
      rewrite shr_nonpos by lia. simpl fst. simpl snd.
      rewrite shr_m_record_of_loc.
      assert (He1E : e1 <= E) by (unfold a, b, n in *; lia).
      destruct (bounded_intro m1' e1) as (p & Hp & Hbp); [lia|lia| |].
      { destruct F2 as [F2|F2]; [by left|right; lia]. }
      rewrite Hp. rewrite (proj2 (Z.leb_le e1 (emax - prec))) by (change (emax - prec) with 971; lia).
      exists p, e1. split_and!; [done|done|].
      apply SFleb_finite.
      destruct (Z.eq_dec e1 E) as [Heq|Hneq]; [right|left; lia].
      split; [done|]. rewrite <- Hp.
      assert (b = a + n) as Hb' by (unfold a, b, n in *; lia).
      rewrite Hb' in F4.
      apply Z.mul_le_mono_pos_r in F4; [lia|done].
    + (* carry into the 54th digit *)
      right. assert (Hm1' : m1' = 2 ^ 53) by lia.
      rewrite Hm1'. change (Zdigits2 (2 ^ 53)) with 54.
      replace (Z.max (54 + e1 - 53) (-1074) - e1) with 1 by lia.
      assert (Hshr2 : shr (shr_record_of_loc (2 ^ 53) loc_Exact) e1 1 =
                ({| shr_m := Zpos 4503599627370496; shr_r := false; shr_s := false |},
                 e1 + 1)) by reflexivity.
      rewrite Hshr2. cbv beta iota zeta. cbn [shr_m].
      assert (Hlt : a + n < b).
      { destruct (Z_lt_ge_dec (a + n) b) as [|Hge']; [done|exfalso].
        assert (b = a + n) as Hb' by lia. rewrite Hb' in F4.
        apply Z.mul_le_mono_pos_r in F4; [lia|done]. }
      rewrite (proj2 (Z.leb_le (e1 + 1) (emax - prec)))
        by (change (emax - prec) with 971; unfold a, b, n in *; lia).
      exists 4503599627370496%positive, (e1 + 1). split_and!; [done| |].
      * unfold bounded, canonical_mantissa. rewrite andb_true_iff, Z.eqb_eq, Z.leb_le.
        rewrite fexp_eq. change (emax - prec) with 971.
        change (Zpos (digits2_pos 4503599627370496)) with 53.
        unfold a, b, n in *; lia.
      * apply SFleb_finite.
        destruct (Z.eq_dec (e1 + 1) E) as [Heq|Hneq]; [right|left; unfold a, b, n in *; lia].
        split; [done|].
        assert (b = 1 + (a + n)) as Hb' by (unfold a, b, n in *; lia).
        rewrite Hb', (Z.pow_add_r 2 1), Z.mul_assoc in F4 by lia.
        apply Z.mul_le_mono_pos_r in F4; [|done].
        change (2 ^ 1) with 2 in F4. change (Zpos 4503599627370496) with (2 ^ 52). lia.
Qed.

End Rounding.

(** ** The range of the snapped index *)

Module SnapRange.
Import JSNumber Timeline Rounding.

Local Open Scope Z_scope.

Lemma TIMELINE_STEP_eq : TIMELINE_STEP = S754_finite false step_m (-58).
Proof. reflexivity. Qed.

(** The quotient and the exponent [SFdiv] hands to the rounding when a
    binary64 number [m * 2 ^ e] is divided by [STEP]. *)
Lemma SFdiv_core_step m e :
  bounded prec emax m e = true →
  let e' := Z.max (Zpos (digits2_pos m) + e - 48) (-1074) in
  let s := e + 58 - e' in
  SFdiv_core_binary prec emax (Zpos m) e (Zpos step_m) (-58) =
  (Zpos m * 2 ^ s / Zpos step_m, e', new_location (Zpos step_m) ((Zpos m * 2 ^ s) mod Zpos step_m)).
Proof.
  intros Hb e' s. destruct (bounded_inv _ _ Hb) as (Hm & He & Hn).
  pose proof (digits2_pos_bounds m) as [Hlo Hhi].
  assert (Hd : Zpos (digits2_pos m) <= 53).
  { change (Zpos (digits2_pos m)) with (Zdigits2 (Zpos m)). apply Zdigits2_le; lia. }
  unfold SFdiv_core_binary.
  change (Zdigits2 (Zpos step_m)) with 53. change (Zdigits2 (Zpos m)) with (Zpos (digits2_pos m)).
  rewrite fexp_eq.
  replace (Z.min (Z.max (Zpos (digits2_pos m) + e - (53 + -58) - 53) (-1074)) (e - -58))
    with e' by (unfold e'; lia).
  replace (e - -58 - e') with s by (unfold s; lia).
  assert (Hs : 0 < s) by (unfold s, e'; lia).
  destruct s as [|p|p] eqn:Es; try lia.
  rewrite Z.shiftl_mul_pow2 by lia.
  unfold Z.div, Z.modulo. by destruct (Z.div_eucl _ _).
Qed.

Lemma of_Z_100 : of_Z 100 = S754_finite false hundred_m (-46).
Proof. vm_compute. reflexivity. Qed.

(** A binary64 number below [2] divided by [STEP] is at most [100]. *)
Lemma fdiv_step_le_100 m e :
  bounded prec emax m e = true → e <= -52 →
  fdiv (S754_finite false m e) TIMELINE_STEP = S754_zero false ∨
  ∃ m' e', fdiv (S754_finite false m e) TIMELINE_STEP = S754_finite false m' e' ∧
           bounded prec emax m' e' = true ∧
           SFleb (S754_finite false m' e') (of_Z 100) = true.
Proof.
  intros Hb He52. destruct (bounded_inv _ _ Hb) as (Hm & He & Hn).
  pose proof (digits2_pos_bounds m) as [Hlo Hhi].
  set (d := Zpos (digits2_pos m)) in *.
  assert (Hd1 : 1 <= d) by (unfold d; lia).
  assert (Hd : d <= 53).
  { unfold d. change (Zpos (digits2_pos m)) with (Zdigits2 (Zpos m)). apply Zdigits2_le; lia. }
  rewrite of_Z_100, TIMELINE_STEP_eq. unfold fdiv, SFdiv.
  rewrite (SFdiv_core_step m e Hb). fold d.
  set (e' := Z.max (d + e - 48) (-1074)).
  set (s := e + 58 - e').
  set (q := Zpos m * 2 ^ s / Zpos step_m).
  assert (Hs : 53 <= s) by (unfold s, e'; lia).
  assert (Hps : 0 < 2 ^ s) by (apply Z.pow_pos_nonneg; lia).
  assert (Hq : 0 <= q) by (apply Z.div_pos; unfold step_m; lia).
  assert (He' : e' <= -47) by (unfold e'; lia).
  change (xorb false false) with false.
  apply binary_round_aux_le.
  - exact Hq.
  - unfold e'. lia.
  - rewrite fexp_eq.
    destruct (Z.eq_dec e' (-1074)) as [->|Hne]; [lia|].
    assert (Hs' : s = 106 - d) by (unfold s, e' in *; lia).
    assert (Hq52 : 2 ^ 52 <= q).
    { apply Z.div_le_lower_bound; [done|].
      assert (2 ^ 105 <= Zpos m * 2 ^ s).
      { replace 105 with ((d - 1) + s) by lia. rewrite Z.pow_add_r by lia.
        apply Z.mul_le_mono_nonneg_r; lia. }
      assert (Zpos step_m * 2 ^ 52 <= 2 ^ 105) by (vm_compute; discriminate).
      lia. }
    pose proof (Zdigits2_gt q 52 ltac:(lia) Hq52). lia.
  - reflexivity.
  - assert (Hq100 : q < 100 * 2 ^ (- e')).
    { apply Z.div_lt_upper_bound; [done|].
      assert (Hpe : 0 < 2 ^ (- e')) by (apply Z.pow_pos_nonneg; lia).
      assert (2 ^ s <= 2 ^ (6 + - e')) by (apply Z.pow_le_mono_r; unfold s; lia).
      rewrite Z.pow_add_r in H by lia. change (2 ^ 6) with 64 in H.
      assert (Zpos m * 2 ^ s <= Zpos m * (64 * 2 ^ (- e')))
        by (apply Z.mul_le_mono_nonneg_l; lia).
      assert (64 * Zpos m < 100 * Zpos step_m) by (unfold step_m; lia).
      nia. }
    assert (Hsplit : Zpos hundred_m * 2 ^ (-46 + 1074) =
                     (100 * 2 ^ (- e')) * 2 ^ (e' + 1074)).
    { change (Zpos hundred_m) with (100 * 2 ^ 46).
      rewrite <- !Z.mul_assoc, <- !Z.pow_add_r by (unfold e'; lia).
      do 2 f_equal. lia. }
    rewrite Hsplit. apply Z.mul_le_mono_nonneg_r; [|lia].
    apply Z.pow_nonneg. lia.
Qed.

(** [Math.round] of a binary64 number between [0] and [100] is one of
    the integers [0], ..., [100]. *)
Lemma Math_round_le_100 m e :
  bounded prec emax m e = true →
  SFleb (S754_finite false m e) (of_Z 100) = true →
  ∃ k, 0 <= k <= 100 ∧ Math_round (S754_finite false m e) = of_Z k.
Proof.
  intros Hb Hle. destruct (bounded_inv _ _ Hb) as (Hm & He & _).
  rewrite of_Z_100 in Hle. apply SFleb_finite_inv in Hle.
  unfold Math_round. destruct (Z.leb_spec 0 e) as [He0|He0]; [lia|].
  change (cond_Zopp false (Zpos m)) with (Zpos m).
  set (n := (2 * Zpos m + 2 ^ (- e)) / 2 ^ (1 - e)).
  assert (Hp : 0 < 2 ^ (- e)) by (apply Z.pow_pos_nonneg; lia).
  assert (Hp1 : 2 ^ (1 - e) = 2 * 2 ^ (- e)).
  { replace (1 - e) with (1 + - e) by lia. by rewrite Z.pow_add_r by lia. }
  assert (Hn0 : 0 <= n) by (apply Z.div_pos; lia).
  assert (Hn100 : n < 101).
  { apply Z.div_lt_upper_bound; [lia|]. rewrite Hp1.
    destruct Hle as [Hlt|[-> Hle]].
    - assert (2 ^ 47 <= 2 ^ (- e)) by (apply Z.pow_le_mono_r; lia). lia.
    - change (2 ^ (- -46)) with (2 ^ 46). unfold hundred_m in Hle. lia. }
  destruct (Z.eqb_spec n 0) as [Hz|Hnz].
  - exists 0. split; [lia|reflexivity].
  - exists n. split; [lia|reflexivity].
Qed.

Lemma num_eqb_eq a b : num_eqb a b = true → a = b.
Proof.
  destruct a as [s|s| |s m e], b as [s'|s'| |s' m' e']; simpl; try discriminate.
  - by intros ->%eqb_prop.
  - by intros ->%eqb_prop.
  - done.
  - rewrite !andb_true_iff. intros [[->%eqb_prop ->%Pos.eqb_eq] ->%Z.eqb_eq]. done.
Qed.

(** The index [Math.round] yields in [clampTime] is one of [0], ..., [100]. *)
Lemma snap_index x :
  valid x →
  ∃ k, 0 <= k <= 100 ∧
    Math_round (fdiv (clamp (if isFinite x then x else TIMELINE_MIN)
                        TIMELINE_MIN TIMELINE_MAX) TIMELINE_STEP) = of_Z k.
Proof.
  intros Hv.
  assert (Hmin : ∃ k, 0 <= k <= 100 ∧
            Math_round (fdiv (clamp TIMELINE_MIN TIMELINE_MIN TIMELINE_MAX) TIMELINE_STEP)
            = of_Z k) by (exists 0; split; [lia|vm_compute; reflexivity]).
  destruct x as [s|s| |s m e]; [|exact Hmin|exact Hmin|].
  - exists 0. split; [lia|]. destruct s; vm_compute; reflexivity.
  - change (isFinite (S754_finite s m e)) with true. cbv iota.
    unfold clamp.
    destruct (fge (S754_finite s m e) TIMELINE_MAX) eqn:Hge.
    { exists 100. split; [lia|vm_compute; reflexivity]. }
    destruct (fle (S754_finite s m e) TIMELINE_MIN) eqn:Hle.
    { exists 0. split; [lia|vm_compute; reflexivity]. }
    destruct s; [discriminate Hle|].
    assert (He : e <= -52).
    { destruct (bounded_inv _ _ Hv) as (Hm & He & Hn).
      destruct (Z_le_gt_dec e (-52)) as [|Hgt]; [done|exfalso].
      unfold fge, TIMELINE_MAX in Hge.
      rewrite SFleb_finite in Hge; [discriminate|].
      destruct (Z.eq_dec e (-51)) as [->|Hne]; [right|left; lia].
      split; [done|]. change (Zpos 4503599627370496) with (2 ^ 52). lia. }
    destruct (fdiv_step_le_100 m e Hv He) as [Hz|(m' & e' & Hq & Hb' & Hle')].
    + rewrite Hz. exists 0. split; [lia|reflexivity].
    + rewrite Hq. by apply Math_round_le_100.
Qed.

Lemma clampTime_snap x : valid x → ∃ k, 0 <= k <= 100 ∧ clampTime x = snap k.
Proof.
  intros Hv. destruct (snap_index x Hv) as (k & Hk & Hround).
  exists k. split; [done|]. unfold clampTime, snap. by rewrite Hround.
Qed.

Lemma all_snaps_spec P :
  all_snaps P = true → ∀ k, 0 <= k <= 100 → P k (snap k) = true.
Proof.
  unfold all_snaps. rewrite forallb_forall. intros Hall k Hk.
  specialize (Hall (Z.to_nat k)). rewrite Z2Nat.id in Hall by lia.
  apply Hall. apply in_seq. lia.
Qed.

End SnapRange.

(** ** The claims about the event store *)

Module StoreClaims.
Import EventStore EventStoreFacts SetDataFacts StoreOps Emission Scenarios.

Section Claims.
Context {V H : Type}.
Variable bodies : Callback → V → Prog V H.

Local Abbreviation evaluates := (evaluates bodies).

Lemma on_idempotent ev cb (s : Store V) : on ev cb (on ev cb s) = on ev cb s.
Proof.
  assert (Hadd : ∀ es, set_add cb (set_add cb es) = set_add cb es).
  { intros es. destruct (decide (Some cb ∈ es)) as [Hin|Hin].
    - assert (E : set_add cb es = es)
        by (unfold set_add; by rewrite bool_decide_eq_true_2).
      by rewrite !E.
    - assert (E : set_add cb es = es ++ [Some cb])
        by (unfold set_add; by rewrite bool_decide_eq_false_2).
      rewrite E. unfold set_add. rewrite bool_decide_eq_true_2; [reflexivity|].
      apply elem_of_app. right. by apply list_elem_of_singleton. }
  destruct (listeners s !! ev) as [l|] eqn:Hl.
  - rewrite (on_known _ _ _ _ Hl). rewrite (on_known _ _ _ l) by done. simpl.
    f_equal. rewrite alter_alter_eq. apply alter_ext. intros es _. apply Hadd.
  - rewrite (on_unknown _ _ _ Hl).
    rewrite (on_known _ _ _ (next s)) by (simpl; by rewrite lookup_insert_eq).
    simpl. f_equal. rewrite alter_insert_eq. f_equal.
    unfold set_add. rewrite bool_decide_eq_true_2; [reflexivity|].
    by apply list_elem_of_singleton.
Qed.

(** C4, as amended.  After any calls of [on] and [off], when the
    callbacks registered for ["<key>:set"] do not themselves call [on],
    [off] or [set], [set(key, v)] stores [v] and returns after having
    invoked exactly the callbacks registered for ["<key>:set"] at the
    time of the call, each once, with [v], in registration order: the
    order of the [on] calls that registered them, where a second [on]
    with a registered callback counts for nothing and calls for other
    events do not count.  Nothing is asked of the value stored before,
    so a [set] of the same value emits again. *)
Theorem set_fans_out_to_passive_callbacks rs key v (w : World V H) :
  consistent (store w) →
  (∀ c, c ∈ registration_order (set_event key) rs
              (registered (store w) (set_event key)) →
        passive (bodies c v)) →
  ∃ w', evaluates (Run (CallSet key v Done)) (with_store (registrations rs) w) w' ∧
    get key (store w') = Some v ∧
    invoked_since (with_store (registrations rs) w) w' =
      (λ c, (c, v)) <$> registration_order (set_event key) rs
                          (registered (store w) (set_event key)) ∧
    written_since (with_store (registrations rs) w) w' = [(key, v)] ∧
    (∀ cb, cb ∉ registration_order (set_event key) rs
                  (registered (store w) (set_event key)) →
           (cb, v) ∉ invoked_since (with_store (registrations rs) w) w') ∧
    NoDup (registration_order (set_event key) rs
             (registered (store w) (set_event key))) ∧
    (∀ cb, on (set_event key) cb (on (set_event key) cb (store w)) =
           on (set_event key) cb (store w)).
Proof.
  intros Hc Hp.
  pose proof (consistent_registrations rs _ Hc) as Hc1.
  pose proof (registered_registrations (set_event key) rs _ Hc) as Hreg.
  rewrite <- Hreg in *.
  destruct (set_passive bodies key v (with_store (registrations rs) w) Hc1 Hp)
    as [h' Hset].
  eexists. split_and!.
  - exact Hset.
  - unfold get. simpl. apply lookup_insert_eq.
  - by apply invoked_since_app.
  - by apply written_since_app.
  - intros cb Hcb. erewrite invoked_since_app by done.
    rewrite list_elem_of_fmap. by intros (c & [= <-] & Hin).
  - by apply registered_NoDup.
  - intros cb. apply on_idempotent.
Qed.

(** C1, as amended.  [emit] iterates the live [Set]: when a callback [A]
    registered for ["<key>:set"] registers a callback [B] that is not yet
    registered for that event and makes no other call of [on], [off] or
    [set], and neither the other callbacks of the event nor [B] make
    any, the emission pass of [set(key, v)] invokes the callbacks
    registered at the time of the call and then, in the same pass, [B]. *)
Theorem emit_invokes_callback_added_during_pass
    key v A B pre post l (w : World V H) :
  listeners (store w) !! set_event key = Some l →
  heap (store w) !! l = Some (pre ++ Some A :: post) →
  (∀ c, c ∈ live pre ++ live post → passive (bodies c v)) →
  only_registers (set_event key) B (bodies A v) →
  B ∉ registered (store w) (set_event key) →
  passive (bodies B v) →
  ∃ w', evaluates (Run (CallSet key v Done)) w w' ∧
    invoked_since w w' =
      (λ c, (c, v)) <$> (registered (store w) (set_event key) ++ [B]) ∧
    (B, v) ∈ invoked_since w w'.
Proof.
  intros Hl Hes Hp HA HB HpB.
  rewrite (registered_known _ _ _ _ Hl Hes) in *.
  pose (w1 := record_write key v (with_store (store_value key v) w)).
  destruct (foreach_passive bodies l v pre [] (Some A :: post) w1) as [h1 Hpre];
    [done| |].
  { intros c Hc. apply Hp. apply elem_of_app. by left. }
  simpl in Hpre.
  set (w2 := {| store := store_value key v (store w); host := h1;
                calls := calls w ++ ((λ c, (c, v)) <$> live pre);
                writes := writes w ++ [(key, v)] |}) in Hpre.
  destruct (only_registers_evaluates bodies _ _ _ HA (record_call A v w2))
    as [h2 Hbody].
  simpl in Hbody.
  set (w3 := {| store := on (set_event key) B (store_value key v (store w));
                host := h2; calls := (calls w ++ ((λ c, (c, v)) <$> live pre)) ++ [(A, v)];
                writes := writes w ++ [(key, v)] |}) in Hbody.
  assert (Hh3 : heap (store w3) !! l =
                Some ((pre ++ [Some A]) ++ (post ++ [Some B]))).
  { simpl. rewrite (on_known _ _ _ l) by done. simpl.
    rewrite lookup_alter_eq, Hes. simpl. rewrite set_add_fresh by done.
    by rewrite <- !app_assoc. }
  destruct (foreach_passive_end bodies l v (post ++ [Some B]) (pre ++ [Some A]) w3 Hh3)
    as [h3 Hpost].
  { intros c. rewrite live_app, elem_of_app. intros [Hc|Hc].
    - apply Hp. apply elem_of_app. by right.
    - simpl in Hc. apply list_elem_of_singleton in Hc. by subst. }
  assert (Hcalls : invoked_since w
      {| store := store w3; host := h3;
         calls := calls w3 ++ ((λ c, (c, v)) <$> live (post ++ [Some B]));
         writes := writes w3 |} =
      (λ c, (c, v)) <$> (live (pre ++ Some A :: post) ++ [B])).
  { apply invoked_since_app. simpl.
    rewrite !live_app. simpl. rewrite !fmap_app. simpl.
    by rewrite <- !app_assoc. }
  eexists. split_and!.
  - eapply evaluates_set_emit; [exact Hl| |apply evaluates_done].
    apply Hpre.
    eapply evaluates_foreach_call.
    + simpl. exact Hes.
    + by apply list_lookup_middle.
    + exact Hbody.
    + replace (S (length pre)) with (length (pre ++ [Some A]))
        by (rewrite length_app; simpl; lia).
      exact Hpost.
  - exact Hcalls.
  - rewrite Hcalls. apply list_elem_of_fmap. exists B. split; [done|].
    apply elem_of_app. right. by apply list_elem_of_singleton.
Qed.

(** C10, as amended.  When a callback [A] registered for
    ["<key>:set"] calls [off("<key>:set", cb)] for a callback [cb]
    registered after it and makes no other call of [on], [off] or [set],
    and the other callbacks of the event make none, the emission pass of
    [set(key, v)] does not invoke [cb]: it invokes the callbacks before
    [A], [A], and those after [A] other than [cb]. *)
Theorem off_during_emission_skips_callback
    key v A cb pre post l (w : World V H) :
  listeners (store w) !! set_event key = Some l →
  heap (store w) !! l = Some (pre ++ Some A :: post) →
  (∀ c, c ∈ live pre ++ live post → passive (bodies c v)) →
  only_removes (set_event key) cb (bodies A v) →
  cb ≠ A → cb ∉ live pre → cb ∈ live post →
  ∃ w', evaluates (Run (CallSet key v Done)) w w' ∧
    invoked_since w w' =
      (λ c, (c, v)) <$> (live pre ++ A :: filter (λ c, c ≠ cb) (live post)) ∧
    (cb, v) ∉ invoked_since w w'.
Proof.
  intros Hl Hes Hp HA HcbA Hcbpre Hcbpost.
  pose (w1 := record_write key v (with_store (store_value key v) w)).
  destruct (foreach_passive bodies l v pre [] (Some A :: post) w1) as [h1 Hpre];
    [done| |].
  { intros c Hc. apply Hp. apply elem_of_app. by left. }
  simpl in Hpre.
  set (w2 := {| store := store_value key v (store w); host := h1;
                calls := calls w ++ ((λ c, (c, v)) <$> live pre);
                writes := writes w ++ [(key, v)] |}) in Hpre.
  destruct (only_removes_evaluates bodies _ _ _ HA (record_call A v w2))
    as [h2 Hbody].
  simpl in Hbody.
  set (w3 := {| store := off (set_event key) cb (store_value key v (store w));
                host := h2; calls := (calls w ++ ((λ c, (c, v)) <$> live pre)) ++ [(A, v)];
                writes := writes w ++ [(key, v)] |}) in Hbody.
  assert (Hh3 : heap (store w3) !! l =
                Some ((pre ++ [Some A]) ++ set_delete cb post)).
  { simpl. rewrite (off_known _ _ _ l (pre ++ Some A :: post)) by done. simpl.
    rewrite lookup_insert_eq. f_equal.
    rewrite set_delete_app, (set_delete_absent cb pre) by done.
    change (Some A :: post) with ([Some A] ++ post).
    rewrite set_delete_app. rewrite <- app_assoc. do 2 f_equal.
    simpl. rewrite bool_decide_eq_false_2; [done|congruence]. }
  destruct (foreach_passive_end bodies l v (set_delete cb post) (pre ++ [Some A]) w3 Hh3)
    as [h3 Hpost].
  { intros c. rewrite live_set_delete, list_elem_of_filter. intros [_ Hc].
    apply Hp. apply elem_of_app. by right. }
  assert (Hcalls : invoked_since w
      {| store := store w3; host := h3;
         calls := calls w3 ++ ((λ c, (c, v)) <$> live (set_delete cb post));
         writes := writes w3 |} =
      (λ c, (c, v)) <$> (live pre ++ A :: filter (λ c, c ≠ cb) (live post))).
  { apply invoked_since_app. simpl.
    rewrite live_set_delete. rewrite !fmap_app. simpl.
    by rewrite <- !app_assoc. }
  eexists. split_and!.
  - eapply evaluates_set_emit; [exact Hl| |apply evaluates_done].
    apply Hpre.
    eapply evaluates_foreach_call.
    + simpl. exact Hes.
    + by apply list_lookup_middle.
    + exact Hbody.
    + replace (S (length pre)) with (length (pre ++ [Some A]))
        by (rewrite length_app; simpl; lia).
      exact Hpost.
  - exact Hcalls.
  - rewrite Hcalls. rewrite list_elem_of_fmap. intros (c & [= <-] & Hc).
    apply elem_of_app in Hc as [Hc|Hc]; [done|].
    apply elem_of_cons in Hc as [Hc|Hc]; [done|].
    apply list_elem_of_filter in Hc as [Hc _]. done.
Qed.

(** C8, as amended.  From a new store, whatever sequence of [on], [off]
    and [set] calls is made and whatever the callbacks do, the listener
    map never maps an event name to an empty callback set; [off] of the
    last callback of an event removes the event name; [off] for an
    unknown event changes nothing; [on] for an unknown event registers
    the callback as the event's only one.  When the callbacks leave the
    store alone the sequence runs to its end. *)
Theorem listeners_hold_no_empty_set (ops : list (Op V)) (w : World V H) ev cb :
  store w = createDataStore →
  (∀ w', evaluates (Run (script ops)) w w' →
     no_empty_entry (store w') ∧
     (registered (store w') ev = [cb] → listeners (off ev cb (store w')) !! ev = None) ∧
     (listeners (store w') !! ev = None → off ev cb (store w') = store w') ∧
     (listeners (store w') !! ev = None →
        registered (on ev cb (store w')) ev = [cb] ∧
        listeners (on ev cb (store w')) !! ev = Some (next (store w')))) ∧
  ((∀ c v, passive (bodies c v)) → ∃ w', evaluates (Run (script ops)) w w').
Proof.
  intros Hnew.
  assert (Hc : consistent (store w)) by (rewrite Hnew; apply consistent_createDataStore).
  split; [|intros Hp; by apply script_terminates].
  intros w' [fuel Hex].
  pose proof (exec_consistent bodies fuel _ _ _ Hex Hc) as Hc'.
  split_and!.
  - by apply consistent_no_empty_entry.
  - intros Hreg.
    destruct (listeners (store w') !! ev) as [l|] eqn:Hl;
      [|by rewrite registered_unknown in Hreg].
    destruct (consistent_entry _ Hc' _ _ Hl) as (es & Hes & _).
    rewrite (registered_known _ _ _ _ Hl Hes) in Hreg.
    rewrite (off_known _ _ _ _ _ Hl Hes). simpl.
    unfold set_size. rewrite live_set_delete, Hreg.
    rewrite filter_cons_False by (intros Hne; by apply Hne).
    simpl. apply lookup_delete_eq.
  - apply off_unknown.
  - intros Hl. rewrite registered_on by done.
    rewrite (registered_unknown _ _ Hl). split; [done|].
    rewrite (on_unknown _ _ _ Hl). simpl. apply lookup_insert_eq.
Qed.

End Claims.

(** C1: the callback [1] that callback [0] registers during the emission
    pass of [set("k", 7)] is invoked in that pass, although it was not
    registered when [set] was called. *)
Lemma emission_is_not_a_snapshot :
  ¬ snapshot_emission registering "k" 7 (blank one_listener).
Proof.
  intros Hs.
  destruct (exec registering 10 (Run (CallSet "k" 7 Done)) (blank one_listener))
    as [w'|] eqn:E; [|vm_compute in E; discriminate].
  apply (Hs w' 1 (ex_intro _ 10 E)).
  - assert (Hr : registered (store (blank one_listener)) (set_event "k") = [0])
      by (vm_compute; reflexivity).
    rewrite Hr. intros Hin. apply list_elem_of_singleton in Hin. discriminate.
  - vm_compute in E. injection E as <-.
    assert (Hi : ∀ s h ws, invoked_since (blank one_listener)
       {| store := s; host := h; calls := [(0, 7); (1, 7)]; writes := ws |}
       = [(0, 7); (1, 7)]) by reflexivity.
    rewrite Hi. apply elem_of_cons. right. apply elem_of_cons. by left.
Qed.

Lemma emit_invokes_callback_added_during_pass_witness :
  ∃ w', evaluates registering (Run (CallSet "k" 7 Done)) (blank one_listener) w' ∧
    invoked_since (blank one_listener) w' =
      (λ c, (c, 7)) <$> (registered (store (blank one_listener)) (set_event "k") ++ [1]) ∧
    (1, 7) ∈ invoked_since (blank one_listener) w'.
Proof.
  apply (emit_invokes_callback_added_during_pass registering "k" 7 0 1 [] [] 0).
  - vm_compute. reflexivity.
  - vm_compute. reflexivity.
  - intros c Hc. simpl in Hc. by apply not_elem_of_nil in Hc.
  - apply only_registers_here. constructor.
  - assert (Hr : registered (store (blank one_listener)) (set_event "k") = [0])
      by (vm_compute; reflexivity).
    rewrite Hr. intros Hin. apply list_elem_of_singleton in Hin. discriminate.
  - constructor.
Defined.

(** C4: with two callbacks registered, of which the first removes the
    second, [set("k", 7)] does not invoke every callback registered at
    the time of the call. *)
Lemma fan_out_misses_removed_callback :
  ¬ fans_out removing "k" 7 (blank two_listeners).
Proof.
  intros Hf.
  destruct (exec removing 10 (Run (CallSet "k" 7 Done)) (blank two_listeners))
    as [w'|] eqn:E; [|vm_compute in E; discriminate].
  specialize (Hf w' (ex_intro _ 10 E)).
  assert (Hr : registered (store (blank two_listeners)) (set_event "k") = [0; 1])
    by (vm_compute; reflexivity).
  rewrite Hr in Hf. vm_compute in E. injection E as <-.
  assert (Hi : ∀ s h ws, invoked_since (blank two_listeners)
     {| store := s; host := h; calls := [(0, 7)]; writes := ws |}
     = [(0, 7)]) by reflexivity.
  rewrite Hi in Hf. discriminate.
Qed.

Lemma consistent_fan : consistent fan.
Proof. repeat apply consistent_on. apply consistent_createDataStore. Qed.

Lemma set_fans_out_to_passive_callbacks_witness :
  ∃ w', evaluates recording (Run (CallSet "k" 7 Done))
          (with_store (registrations fan_calls) (blank createDataStore)) w' ∧
    get "k" (store w') = Some 7 ∧
    invoked_since (with_store (registrations fan_calls) (blank createDataStore)) w' =
      [(0, 7); (1, 7)] ∧
    written_since (with_store (registrations fan_calls) (blank createDataStore)) w' =
      [("k"%string, 7)] ∧
    (∀ cb, cb ∉ [0; 1] →
           (cb, 7) ∉ invoked_since
                       (with_store (registrations fan_calls) (blank createDataStore)) w') ∧
    NoDup [0; 1] ∧
    (∀ cb, on (set_event "k") cb (on (set_event "k") cb (store (blank createDataStore))) =
           on (set_event "k") cb (store (blank createDataStore))).
Proof.
  apply (set_fans_out_to_passive_callbacks recording fan_calls "k" 7
           (blank createDataStore)).
  - simpl. apply consistent_createDataStore.
  - intros c _. constructor.
Defined.

(** C10: callback [0] removes callback [1] and registers it again;
    callback [1] is invoked in the pass of [set("k", 7)] all the same. *)
Lemma removed_callback_registered_again_is_invoked :
  ¬ removal_keeps_out readding "k" 7 (blank two_listeners).
Proof.
  intros Hr.
  destruct (exec readding 10 (Run (CallSet "k" 7 Done)) (blank two_listeners))
    as [w'|] eqn:E; [|vm_compute in E; discriminate].
  apply (Hr w' 0 1 [] [1]).
  - vm_compute. reflexivity.
  - by apply list_elem_of_singleton.
  - apply calls_off_here.
  - by exists 10.
  - vm_compute in E. injection E as <-.
    assert (Hi : ∀ s h ws, invoked_since (blank two_listeners)
       {| store := s; host := h; calls := [(0, 7); (1, 7)]; writes := ws |}
       = [(0, 7); (1, 7)]) by reflexivity.
    rewrite Hi. apply elem_of_cons. right. apply elem_of_cons. by left.
Qed.

Lemma off_during_emission_skips_callback_witness :
  ∃ w', evaluates removing (Run (CallSet "k" 7 Done)) (blank two_listeners) w' ∧
    invoked_since (blank two_listeners) w' =
      (λ c, (c, 7)) <$> (live [] ++ 0 :: filter (λ c, c ≠ 1) (live [Some 1])) ∧
    (1, 7) ∉ invoked_since (blank two_listeners) w'.
Proof.
  apply (off_during_emission_skips_callback removing "k" 7 0 1 [] [Some 1] 0).
  - vm_compute. reflexivity.
  - vm_compute. reflexivity.
  - intros c Hc. simpl in Hc. apply list_elem_of_singleton in Hc. subst c. constructor.
  - apply only_removes_here. constructor.
  - lia.
  - simpl. apply not_elem_of_nil.
  - simpl. by apply list_elem_of_singleton.
Defined.

(** C8: [on] for an event name the store does not know is not a no-op,
    it creates the entry. *)
Lemma on_unknown_event_is_not_a_noop :
  listeners (createDataStore (V := nat)) !! "e"%string = None ∧
  on "e" 0 (createDataStore (V := nat)) ≠ createDataStore ∧
  registered (on "e" 0 (createDataStore (V := nat))) "e" = [0].
Proof.
  split_and!; [reflexivity| |vm_compute; reflexivity].
  intros Heq. apply (f_equal next) in Heq. vm_compute in Heq. discriminate.
Qed.

Lemma listeners_hold_no_empty_set_witness :
  (∀ w', evaluates recording
       (Run (script [OpOn "e" 0; OpSet "k" 7; OpOff "e" 0])) (blank createDataStore) w' →
     no_empty_entry (store w') ∧
     (registered (store w') "e" = [0] → listeners (off "e" 0 (store w')) !! "e"%string = None) ∧
     (listeners (store w') !! "e"%string = None → off "e" 0 (store w') = store w') ∧
     (listeners (store w') !! "e"%string = None →
        registered (on "e" 0 (store w')) "e" = [0] ∧
        listeners (on "e" 0 (store w')) !! "e"%string = Some (next (store w')))) ∧
  (∃ w', evaluates recording
       (Run (script [OpOn "e" 0; OpSet "k" 7; OpOff "e" 0])) (blank createDataStore) w').
Proof.
  destruct (listeners_hold_no_empty_set recording
              [OpOn "e" 0; OpSet "k" 7; OpOff "e" 0] (blank createDataStore) "e" 0
              eq_refl) as [Hsafe Hruns].
  split; [exact Hsafe|]. apply Hruns. intros c v. constructor.
Defined.

End StoreClaims.

(** ** The claim about the render sink adapter *)

Module SinkClaims.
Import RenderSink.

(** A [pc.Entity] has its owning node, and what is forwarded for it is
    what [ready] says. *)
Lemma owned_as_target (e : Entity) : owned (Some (as_target e)).
Proof. by destruct e as [[[[inst|] [[|]|] [[[|]|]]]|]]. Qed.

Lemma forwarded_to_as_target (e : Entity) :
  forwarded_to (Some (as_target e)) = ready (Some e).
Proof. by destruct e as [[[[inst|] [[|]|] [[[|]|]]]|]]. Qed.

(** C9, as amended.  On every target other than a [gsplat] component
    that has an instance and is enabled but has no owning node,
    [applyDynamicToEntity] does not throw: it returns without a call
    when the target, its [gsplat] component or the component's instance
    is missing, or one of the two [enabled] flags is absent or false; in
    every other case it calls [applyDynamicState(value)] on the instance,
    once. *)
Theorem applyDynamicToEntity_skips_or_forwards {V : Type}
    (target : option Any.Target) (value : V) (applied : list (GSplatInstance * V)) :
  owned target →
  applyDynamicToEntity target value applied ≠ Threw ∧
  applyDynamicToEntity target value applied =
    Returned match forwarded_to target with
             | Some inst => applied ++ [(inst, value)]
             | None => applied
             end.
Proof.
  destruct target as [[[[[inst|] [[|]|] [[[[|]|]]|]]|]]|]; simpl; intros Ho;
    try destruct Ho; split; try discriminate; reflexivity.
Qed.

Lemma applyDynamicToEntity_skips_or_forwards_witness :
  applyDynamicToEntity
    (Some (Any.mkTarget (Some (Any.mkComponent (Some 7) (Some true)
                                 (Some (mkNode (Some true)))))))
    5 [] ≠ Threw ∧
  applyDynamicToEntity
    (Some (Any.mkTarget (Some (Any.mkComponent (Some 7) (Some true)
                                 (Some (mkNode (Some true)))))))
    5 [] = Returned [(7, 5)].
Proof.
  apply (applyDynamicToEntity_skips_or_forwards
           (Some (Any.mkTarget (Some (Any.mkComponent (Some 7) (Some true)
                                        (Some (mkNode (Some true)))))))
           5 []).
  exact I.
Defined.

(** C9: on a [gsplat] component that has an instance and is enabled but
    has no owning node, [entity.gsplat?.entity.enabled] reads [enabled]
    of [undefined], and the adapter throws. *)
Lemma applyDynamicToEntity_throws_without_owning_node : ¬ never_raises nat.
Proof.
  intros Hn.
  apply (Hn (Some (Any.mkTarget (Some (Any.mkComponent (Some 7) (Some true) None))))
            5 []).
  reflexivity.
Qed.

End SinkClaims.

(** ** The claims about the autoplay clock *)

Module ClockClaims.
Import EventStore EventStoreFacts StoreOps Emission RenderSink JSNumber Timeline ClockFacts.

Local Abbreviation evaluates := (evaluates bodies).

Lemma applyTimelineValue_accumulator v st :
  autoplayAccumulator (applyTimelineValue v st) = autoplayAccumulator st.
Proof.
  unfold applyTimelineValue, updatePlaybackState.
  by destruct (applyDynamicToEntity _ _ _).
Qed.

Lemma applyTimelineValue_current v st :
  currentTimelineValue (applyTimelineValue v st) = clampTime v.
Proof.
  unfold applyTimelineValue, updatePlaybackState.
  by destruct (applyDynamicToEntity _ _ _).
Qed.

(** A frame in which the clock advances. *)
Lemma after_update_step dt (w : World num State) :
  isDragging (host w) = false → isPaused (host w) = false →
  fge (fadd (autoplayAccumulator (host w)) (fmul dt RATE)) AUTOPLAY_INTERVAL = true →
  after_update dt w =
  {| store := store_value uTime (nextValue (currentTimelineValue (host w))) (store w);
     host := applyTimelineValue (nextValue (currentTimelineValue (host w)))
               (set_autoplayAccumulator
                  (fsub (fadd (autoplayAccumulator (host w)) (fmul dt RATE))
                     AUTOPLAY_INTERVAL) (host w));
     calls := calls w ++ [(timelineHandler, nextValue (currentTimelineValue (host w)))];
     writes := writes w ++ [(uTime, nextValue (currentTimelineValue (host w)))] |}.
Proof. intros Hd Hp Hge. unfold after_update. by rewrite Hd, Hp, Hge. Qed.

(** C2, as amended.  When not paused and not dragging, a call of
    [onUpdate(dt)] that brings the accumulator to [STEP] or beyond makes
    exactly one advancement step, however large [dt] is: one write of the
    next value through the store, and the accumulator keeps what is
    left, [accumulator + dt * RATE - STEP], for the frames to come. *)
Theorem onUpdate_advances_once dt (w : World num State) :
  wired (store w) →
  isDragging (host w) = false → isPaused (host w) = false →
  fge (fadd (autoplayAccumulator (host w)) (fmul dt RATE)) AUTOPLAY_INTERVAL = true →
  ∃ w', evaluates (Run (onUpdate dt)) w w' ∧
    written_since w w' = [(uTime, nextValue (currentTimelineValue (host w)))] ∧
    invoked_since w w' = [(timelineHandler, nextValue (currentTimelineValue (host w)))] ∧
    currentTimelineValue (host w') = clampTime (nextValue (currentTimelineValue (host w))) ∧
    autoplayAccumulator (host w') =
      fsub (fadd (autoplayAccumulator (host w)) (fmul dt RATE)) AUTOPLAY_INTERVAL.
Proof.
  intros Hw Hd Hp Hge. exists (after_update dt w).
  split; [by apply onUpdate_evaluates|].
  rewrite (after_update_step dt w Hd Hp Hge). split_and!.
  - by apply written_since_app.
  - by apply invoked_since_app.
  - simpl. apply applyTimelineValue_current.
  - simpl. by rewrite applyTimelineValue_accumulator.
Qed.

Lemma onUpdate_advances_once_witness :
  ∃ w', evaluates (Run (onUpdate (decimal 1 10))) initial_world w' ∧
    written_since initial_world w' =
      [(uTime, nextValue (currentTimelineValue (host initial_world)))] ∧
    invoked_since initial_world w' =
      [(timelineHandler, nextValue (currentTimelineValue (host initial_world)))] ∧
    currentTimelineValue (host w') =
      clampTime (nextValue (currentTimelineValue (host initial_world))) ∧
    autoplayAccumulator (host w') =
      fsub (fadd (autoplayAccumulator (host initial_world)) (fmul (decimal 1 10) RATE))
        AUTOPLAY_INTERVAL.
Proof.
  apply (onUpdate_advances_once (decimal 1 10) initial_world).
  - apply wired_wired_store.
  - reflexivity.
  - reflexivity.
  - vm_compute. reflexivity.
Defined.

(** C2: a frame of [0.1]s from the initial state brings the accumulator
    to [0.05], which is at least [2 * STEP] and less than [3 * STEP],
    and yet [onUpdate] writes once, not twice. *)
Lemma one_long_frame_advances_once :
  fge (fadd (autoplayAccumulator (host initial_world)) (fmul (decimal 1 10) RATE))
      (fmul (of_Z 2) TIMELINE_STEP) = true ∧
  fge (fadd (autoplayAccumulator (host initial_world)) (fmul (decimal 1 10) RATE))
      (fmul (of_Z 3) TIMELINE_STEP) = false ∧
  ¬ drains 2 (decimal 1 10) initial_world.
Proof.
  split_and!; [vm_compute; reflexivity|vm_compute; reflexivity|].
  intros Hd.
  specialize (Hd ltac:(vm_compute; reflexivity) _
                (onUpdate_evaluates (decimal 1 10) initial_world wired_wired_store)).
  vm_compute in Hd. discriminate.
Qed.

(** C5.  A call of [onUpdate] while dragging or paused resets the
    accumulator to [0] and writes nothing to the store.  From
    [currentTimelineValue = MIN] with an empty accumulator, not dragging
    and not paused, frames whose accumulated scaled time reaches [STEP]
    with the last of them make exactly one write,
    [set("timeline.uTime", MIN + STEP)]; the same frames with a drag in
    progress make none. *)
Theorem autoplay_pause_drag_exclusion dt dts (w : World num State) :
  wired (store w) →
  (isDragging (host w) || isPaused (host w) = true →
     ∃ w', evaluates (Run (onUpdate dt)) w w' ∧
       autoplayAccumulator (host w') = of_Z 0 ∧
       written_since w w' = [] ∧ store w' = store w) ∧
  (isDragging (host w) = false → isPaused (host w) = false →
   currentTimelineValue (host w) = TIMELINE_MIN →
   autoplayAccumulator (host w) = of_Z 0 →
   (∀ n, 0 < n ≤ length dts →
      fge (accumulate (of_Z 0) (take n dts)) AUTOPLAY_INTERVAL = false) →
   fge (accumulate (of_Z 0) (dts ++ [dt])) AUTOPLAY_INTERVAL = true →
   (∃ w', evaluates (Run (frames (dts ++ [dt]))) w w' ∧
      written_since w w' = [(uTime, fadd TIMELINE_MIN TIMELINE_STEP)] ∧
      currentTimelineValue (host w') = fadd TIMELINE_MIN TIMELINE_STEP) ∧
   (∃ w', evaluates (Run (frames (dts ++ [dt]))) (with_host (set_isDragging true) w) w' ∧
      written_since (with_host (set_isDragging true) w) w' = [])).
Proof.
  intros Hw. split.
  - intros Hidle. exists (after_update dt w).
    split; [by apply onUpdate_evaluates|].
    unfold after_update. rewrite Hidle. split_and!; [done| |done].
    unfold written_since. simpl. apply drop_all.
  - intros Hd Hp Hcur Hacc Hbelow Hreach. split.
    + exists (after_frames (dts ++ [dt]) w).
      split; [by apply frames_evaluates|].
      rewrite after_frames_app.
      rewrite (after_frames_below dts w); [|by rewrite Hd, Hp|by rewrite Hacc].
      change (after_frames [dt] ?x) with (after_update dt x).
      rewrite after_update_step; [|exact Hd|exact Hp|].
      * simpl. rewrite Hcur.
        assert (Hnext : nextValue TIMELINE_MIN = fadd TIMELINE_MIN TIMELINE_STEP)
          by (vm_compute; reflexivity).
        rewrite Hnext. split; [by apply written_since_app|].
        rewrite applyTimelineValue_current. vm_compute. reflexivity.
      * simpl. rewrite Hacc.
        unfold accumulate in Hreach. rewrite fold_left_app in Hreach. exact Hreach.
    + exists (after_frames (dts ++ [dt]) (with_host (set_isDragging true) w)).
      split; [by apply frames_evaluates|].
      rewrite after_frames_idle; [|done|by destruct dts].
      unfold written_since. simpl. apply drop_all.
Qed.

Lemma autoplay_pause_drag_exclusion_witness :
  (∃ w', evaluates (Run (onUpdate (decimal 2 100)))
           (with_host (set_isPaused true) initial_world) w' ∧
     autoplayAccumulator (host w') = of_Z 0 ∧
     written_since (with_host (set_isPaused true) initial_world) w' = [] ∧
     store w' = store (with_host (set_isPaused true) initial_world)) ∧
  (∃ w', evaluates (Run (frames ([decimal 2 100] ++ [decimal 2 100]))) initial_world w' ∧
     written_since initial_world w' = [(uTime, fadd TIMELINE_MIN TIMELINE_STEP)] ∧
     currentTimelineValue (host w') = fadd TIMELINE_MIN TIMELINE_STEP) ∧
  (∃ w', evaluates (Run (frames ([decimal 2 100] ++ [decimal 2 100])))
           (with_host (set_isDragging true) initial_world) w' ∧
     written_since (with_host (set_isDragging true) initial_world) w' = []).
Proof.
  split.
  - apply (proj1 (autoplay_pause_drag_exclusion (decimal 2 100) []
                    (with_host (set_isPaused true) initial_world) wired_wired_store)).
    reflexivity.
  - apply (proj2 (autoplay_pause_drag_exclusion (decimal 2 100) [decimal 2 100]
                    initial_world wired_wired_store)).
    + reflexivity.
    + reflexivity.
    + reflexivity.
    + reflexivity.
    + intros n Hn. simpl in Hn. assert (n = 1) as -> by lia. vm_compute. reflexivity.
    + vm_compute. reflexivity.
Defined.

(** C6.  From [currentTimelineValue = MAX - STEP], not paused and not
    dragging, the next advancement step writes [MIN], not [MAX], and the
    timeline is at [MIN] afterwards. *)
Theorem autoplay_wraps_to_min dt (w : World num State) :
  wired (store w) →
  isDragging (host w) = false → isPaused (host w) = false →
  currentTimelineValue (host w) = fsub TIMELINE_MAX TIMELINE_STEP →
  fge (fadd (autoplayAccumulator (host w)) (fmul dt RATE)) AUTOPLAY_INTERVAL = true →
  ∃ w', evaluates (Run (onUpdate dt)) w w' ∧
    written_since w w' = [(uTime, TIMELINE_MIN)] ∧
    get uTime (store w') = Some TIMELINE_MIN ∧
    currentTimelineValue (host w') = TIMELINE_MIN ∧
    TIMELINE_MIN ≠ TIMELINE_MAX.
Proof.
  intros Hw Hd Hp Hcur Hge. exists (after_update dt w).
  split; [by apply onUpdate_evaluates|].
  rewrite (after_update_step dt w Hd Hp Hge). rewrite Hcur.
  assert (Hnext : nextValue (fsub TIMELINE_MAX TIMELINE_STEP) = TIMELINE_MIN)
    by (vm_compute; reflexivity).
  rewrite Hnext. split_and!.
  - by apply written_since_app.
  - unfold get. simpl. apply lookup_insert_eq.
  - simpl. rewrite applyTimelineValue_current. vm_compute. reflexivity.
  - discriminate.
Qed.

Lemma autoplay_wraps_to_min_witness :
  ∃ w', evaluates (Run (onUpdate (decimal 4 100)))
          (with_host (set_currentTimelineValue (fsub TIMELINE_MAX TIMELINE_STEP))
             initial_world) w' ∧
    written_since (with_host (set_currentTimelineValue (fsub TIMELINE_MAX TIMELINE_STEP))
                     initial_world) w' = [(uTime, TIMELINE_MIN)] ∧
    get uTime (store w') = Some TIMELINE_MIN ∧
    currentTimelineValue (host w') = TIMELINE_MIN ∧
    TIMELINE_MIN ≠ TIMELINE_MAX.
Proof.
  apply (autoplay_wraps_to_min (decimal 4 100)
           (with_host (set_currentTimelineValue (fsub TIMELINE_MAX TIMELINE_STEP))
              initial_world)).
  - apply wired_wired_store.
  - reflexivity.
  - reflexivity.
  - reflexivity.
  - vm_compute. reflexivity.
Defined.

End ClockClaims.

(** ** The claims about [clampTime] *)

Module ClampClaims.
Import JSNumber Timeline Rounding SnapRange.

Local Open Scope Z_scope.


Lemma all_snaps_fixed : all_snaps (λ _ r, num_eqb (clampTime r) r) = true.
Proof. vm_compute. reflexivity. Qed.

Lemma all_snaps_equal : all_snaps (λ _ r, SFeqb (clampTime r) r) = true.
Proof. vm_compute. reflexivity. Qed.




(** C7.  [clampTime] is idempotent on every binary64 value: the second
    application returns the very same number, which is not [NaN], so
    that [clampTime(clampTime(x)) == clampTime(x)]. *)
Theorem clampTime_idempotent x :
  valid x →
  clampTime (clampTime x) = clampTime x ∧
  SFeqb (clampTime (clampTime x)) (clampTime x) = true.
Proof.
  intros Hv. destruct (clampTime_snap x Hv) as (k & Hk & ->). split.
  - apply num_eqb_eq.
    exact (all_snaps_spec (λ _ r, num_eqb (clampTime r) r) all_snaps_fixed k Hk).
  - exact (all_snaps_spec (λ _ r, SFeqb (clampTime r) r) all_snaps_equal k Hk).
Qed.

Lemma clampTime_idempotent_witness :
  clampTime (clampTime (decimal 199 100)) = clampTime (decimal 199 100) ∧
  SFeqb (clampTime (clampTime (decimal 199 100))) (clampTime (decimal 199 100)) = true.
Proof.
  apply (clampTime_idempotent (decimal 199 100)).
  vm_compute. reflexivity.
Defined.

End ClampClaims.

(** * Further properties of the store, the timeline and the session *)

(** ** Registration and removal *)

Module StoreLaws.
Import EventStore EventStoreFacts SetDataFacts StoreOps Emission MoreScenarios.

Lemma filter_absent (cb : Callback) (cs : list Callback) :
  cb ∉ cs → filter (λ c, c ≠ cb) cs = cs.
Proof.
  induction cs as [|c cs IH]; [done|].
  rewrite not_elem_of_cons. intros [Hne Hcs].
  rewrite filter_cons_True by done. by rewrite IH.
Qed.

Section Laws.
Context {V : Type}.
Implicit Types s : Store V.

(** X1.  [off(ev, cb)] removes [cb] from the callbacks of [ev] and keeps
    the others in their order; the callbacks of every other event stay
    as they are; and removing a callback that is not registered changes
    no registration. *)
Theorem off_removes_that_callback_only ev cb s :
  consistent s →
  registered (off ev cb s) ev = filter (λ c, c ≠ cb) (registered s ev) ∧
  (∀ ev', ev' ≠ ev → registered (off ev cb s) ev' = registered s ev') ∧
  (cb ∉ registered s ev → ∀ ev', registered (off ev cb s) ev' = registered s ev').
Proof.
  intros Hc. split_and!.
  - by apply registered_off.
  - intros ev' Hne. by apply registered_off_other.
  - intros Hcb ev'. destruct (decide (ev' = ev)) as [->|Hne];
      [|by apply registered_off_other].
    rewrite registered_off by done. by apply filter_absent.
Qed.

(** X2.  [on] followed by [off] of a callback that was not registered
    leaves the callbacks of every event as they were, and the event name
    is in the listener map afterwards exactly if it was before.  [off]
    followed by [on] moves the callback to the end of its event's
    invocation order. *)
Theorem on_off_round_trip ev cb s :
  consistent s →
  (cb ∉ registered s ev →
     (∀ ev', registered (off ev cb (on ev cb s)) ev' = registered s ev') ∧
     listeners (off ev cb (on ev cb s)) = listeners s) ∧
  registered (on ev cb (off ev cb s)) ev =
    filter (λ c, c ≠ cb) (registered s ev) ++ [cb].
Proof.
  intros Hc. split.
  - intros Hcb. split.
    + intros ev'. destruct (decide (ev' = ev)) as [->|Hne].
      * rewrite registered_off by by apply consistent_on.
        rewrite registered_on by done.
        rewrite bool_decide_eq_false_2 by done.
        rewrite filter_app, filter_cons_False by (intros Hn; by apply Hn).
        rewrite filter_nil, app_nil_r. by apply filter_absent.
      * rewrite registered_off_other by (done || by apply consistent_on).
        by apply registered_on_other.
    + destruct (listeners s !! ev) as [l|] eqn:Hl.
      * destruct (consistent_entry _ Hc _ _ Hl) as (es & Hes & Hne).
        rewrite (registered_known _ _ _ _ Hl Hes) in Hcb.
        rewrite (on_known _ _ _ _ Hl).
        erewrite off_known; [|exact Hl|simpl; by rewrite lookup_alter_eq, Hes].
        simpl. rewrite set_add_fresh by done.
        unfold set_size. rewrite live_set_delete, live_app. simpl.
        rewrite filter_app, filter_cons_False by (intros Hn; by apply Hn).
        rewrite filter_nil, app_nil_r, filter_absent by done.
        destruct (live es); [done|reflexivity].
      * rewrite (on_unknown _ _ _ Hl).
        erewrite off_known; [|simpl; apply lookup_insert_eq|simpl; apply lookup_insert_eq].
        simpl. rewrite bool_decide_eq_true_2 by done. simpl.
        by rewrite delete_insert_eq, delete_id.
  - rewrite registered_on by by apply consistent_off.
    rewrite registered_off by done.
    rewrite bool_decide_eq_false_2; [done|].
    rewrite list_elem_of_filter. by intros [Hne _].
Qed.

End Laws.

Lemma consistent_two : consistent Scenarios.two_listeners.
Proof. repeat apply consistent_on. apply consistent_createDataStore. Qed.

Lemma off_removes_that_callback_only_witness :
  registered (off "k:set" 0 Scenarios.two_listeners) "k:set" =
    filter (λ c, c ≠ 0) (registered Scenarios.two_listeners "k:set") ∧
  (∀ ev', ev' ≠ "k:set"%string →
     registered (off "k:set" 0 Scenarios.two_listeners) ev' =
     registered Scenarios.two_listeners ev') ∧
  (0 ∉ registered Scenarios.two_listeners "k:set" →
     ∀ ev', registered (off "k:set" 0 Scenarios.two_listeners) ev' =
            registered Scenarios.two_listeners ev').
Proof.
  apply (off_removes_that_callback_only "k:set" 0 Scenarios.two_listeners).
  apply consistent_two.
Defined.

Lemma on_off_round_trip_witness :
  ((∀ ev', registered (off "k:set" 2 (on "k:set" 2 Scenarios.two_listeners)) ev' =
           registered Scenarios.two_listeners ev') ∧
   listeners (off "k:set" 2 (on "k:set" 2 Scenarios.two_listeners)) =
   listeners Scenarios.two_listeners) ∧
  registered (on "k:set" 0 (off "k:set" 0 Scenarios.two_listeners)) "k:set" =
    filter (λ c, c ≠ 0) (registered Scenarios.two_listeners "k:set") ++ [0].
Proof.
  destruct (on_off_round_trip "k:set" 2 Scenarios.two_listeners consistent_two)
    as [Hround _].
  split.
  - apply Hround.
    assert (Hr : registered Scenarios.two_listeners "k:set" = [0; 1])
      by (vm_compute; reflexivity).
    rewrite Hr. intros Hin. apply elem_of_cons in Hin as [|Hin]; [lia|].
    apply list_elem_of_singleton in Hin. lia.
  - apply (on_off_round_trip "k:set" 0 Scenarios.two_listeners consistent_two).
Defined.

End StoreLaws.

(** ** Callbacks that use the store while they are called *)

Module Reentrancy.
Import EventStore EventStoreFacts SetDataFacts StoreOps Emission MoreScenarios.

Section Reentrancy.
Context {V H : Type}.
Variable bodies : Callback → V → Prog V H.

Local Abbreviation exec := (exec bodies).
Local Abbreviation evaluates := (evaluates bodies).

(** X3.  [set] stores the value before it emits: a callback that calls
    [get(key)] while it is called for ["<key>:set"] gets the value that
    was just set.  The values of the other keys and the registrations
    are as before. *)
Theorem callbacks_get_the_new_value key v (g : Callback → option V → H → H)
    (w : World V H) :
  consistent (store w) →
  (∀ c, c ∈ registered (store w) (set_event key) →
        bodies c v = CallGet key (λ o, Update (g c o) Done)) →
  ∃ w', evaluates (Run (CallSet key v Done)) w w' ∧
    host w' = fold_left (λ h c, g c (Some v) h)
                (registered (store w) (set_event key)) (host w) ∧
    (∀ key', key' ≠ key → get key' (store w') = get key' (store w)) ∧
    (∀ ev, registered (store w') ev = registered (store w) ev).
Proof.
  intros Hc Hb.
  assert (Hp : ∀ c, c ∈ registered (store w) (set_event key) → passive (bodies c v)).
  { intros c Hin. rewrite (Hb c Hin). repeat constructor. }
  eexists. split; [by apply set_passive_host|]. simpl. split_and!.
  - unfold hosts_after. generalize (host w).
    induction (registered (store w) (set_event key)) as [|c cs IH]; intros h; [done|].
    simpl. rewrite (Hb c) by (by left). simpl.
    unfold get at 1. simpl. rewrite lookup_insert_eq.
    apply IH.
    + intros c' Hin. apply Hb. by right.
    + intros c' Hin. apply Hp. by right.
  - intros key' Hne. unfold get. simpl. by rewrite lookup_insert_ne.
  - done.
Qed.

Lemma live_singleton (es : SetData) (A : Callback) :
  live es = [A] →
  ∃ pre post, es = pre ++ Some A :: post ∧ live pre = [] ∧ live post = [].
Proof.
  induction es as [|[c|] es IH]; simpl; [done| |].
  - intros [= -> Hes]. by exists [], es.
  - intros Hes. destruct (IH Hes) as (pre & post & -> & Hpre & Hpost).
    by exists (None :: pre), post.
Qed.

(** X4.  A callback that is the only one of its event and, while it is
    called, unregisters and re-registers itself: the emission pass ends
    after this one invocation, because [off] drops the emptied [Set]
    that [forEach] iterates and [on] registers the callback in a new
    one.  The callback is registered afterwards. *)
Theorem self_reregistration_alone_terminates key v A k (w : World V H) :
  consistent (store w) →
  registered (store w) (set_event key) = [A] →
  bodies A v = CallOff (set_event key) A (CallOn (set_event key) A k) →
  passive k →
  ∃ w', evaluates (Run (CallSet key v Done)) w w' ∧
    invoked_since w w' = [(A, v)] ∧
    registered (store w') (set_event key) = [A] ∧
    listeners (store w') !! set_event key = Some (next (store w)).
Proof.
  intros Hc Hreg HA Hk.
  destruct (listeners (store w) !! set_event key) as [l|] eqn:Hl;
    [|by rewrite registered_unknown in Hreg].
  destruct (consistent_entry _ Hc _ _ Hl) as (es & Hes & _).
  rewrite (registered_known _ _ _ _ Hl Hes) in Hreg.
  destruct (live_singleton es A Hreg) as (pre & post & -> & Hpre & Hpost).
  pose (w1 := record_write key v (with_store (store_value key v) w)).
  set (s2 := on (set_event key) A (off (set_event key) A (store_value key v (store w)))).
  assert (Hdel : set_delete A (pre ++ Some A :: post) = (pre ++ [None]) ++ post).
  { assert (Epre : set_delete A pre = pre)
      by (apply set_delete_absent; rewrite Hpre; apply not_elem_of_nil).
    assert (Epost : set_delete A post = post)
      by (apply set_delete_absent; rewrite Hpost; apply not_elem_of_nil).
    rewrite set_delete_app. change (Some A :: post) with ([Some A] ++ post).
    rewrite set_delete_app, Epre, Epost.
    simpl. rewrite bool_decide_eq_true_2 by done. by rewrite <- app_assoc. }
  assert (Hoff : off (set_event key) A (store_value key v (store w)) =
    {| values := <[key := v]> (values (store w));
       listeners := delete (set_event key) (listeners (store w));
       heap := <[l := (pre ++ [None]) ++ post]> (heap (store w));
       next := next (store w) |}).
  { rewrite (off_known _ _ _ l (pre ++ Some A :: post)) by done. simpl.
    rewrite Hdel. unfold set_size. rewrite !live_app, Hpre, Hpost. reflexivity. }
  assert (Hl_next : l ≠ next (store w)).
  { intros ->. rewrite (consistent_fresh _ Hc) in Hes; [done|lia]. }
  assert (Hs2 : s2 =
    {| values := <[key := v]> (values (store w));
       listeners := <[set_event key := next (store w)]>
                      (delete (set_event key) (listeners (store w)));
       heap := <[next (store w) := [Some A]]>
                 (<[l := (pre ++ [None]) ++ post]> (heap (store w)));
       next := S (next (store w)) |}).
  { unfold s2. rewrite Hoff. rewrite on_unknown by (simpl; apply lookup_delete_eq).
    reflexivity. }
  pose proof (passive_evaluates_host bodies k Hk
    {| store := s2; host := host w; calls := calls w ++ [(A, v)];
       writes := writes w ++ [(key, v)] |}) as Hbody.
  simpl in Hbody.
  eexists. split_and!.
  - eapply evaluates_set_emit; [exact Hl| |apply evaluates_done].
    apply (foreach_passive_host bodies l v pre [] (Some A :: post) w1); [done| |].
    { intros c. rewrite Hpre. intros Hin. by apply not_elem_of_nil in Hin. }
    rewrite Hpre. simpl. rewrite app_nil_r.
    eapply evaluates_foreach_call.
    + simpl. exact Hes.
    + by apply list_lookup_middle.
    + rewrite HA. apply evaluates_off, evaluates_on. exact Hbody.
    + replace (S (length pre)) with (length (pre ++ [None]))
        by (rewrite length_app; simpl; lia).
      apply (foreach_passive_end_host bodies l v post (pre ++ [None])).
      * simpl. rewrite Hs2. simpl.
        rewrite lookup_insert_ne by done. apply lookup_insert_eq.
      * intros c. rewrite Hpost. intros Hin. by apply not_elem_of_nil in Hin.
  - apply invoked_since_app. simpl. rewrite Hpost. simpl. by rewrite app_nil_r.
  - simpl. rewrite Hs2. unfold registered. simpl. by rewrite !lookup_insert_eq.
  - simpl. rewrite Hs2. simpl. apply lookup_insert_eq.
Qed.

Lemma forEach_never_ends ev v A B l :
  B ≠ A →
  bodies A v = CallOff ev A (CallOn ev A Done) →
  ∀ fuel index (w : World V H),
    loops bodies ev v A B l index w → exec fuel (ForEach l index v) w = None.
Proof.
  intros HBA HA. induction fuel as [|n IH]; intros i w Hloops; [done|].
  destruct Hloops as (Hl & es & Hes & (j & Hij & Hj) & HB & Hp).
  simpl. rewrite Hes. simpl.
  assert (Hlt : i < length es).
  { apply lookup_lt_Some in Hj. lia. }
  destruct (lookup_lt_is_Some_2 es i Hlt) as [e He]. rewrite He.
  assert (Hnext : e ≠ Some A → S i ≤ j).
  { intros Hne. destruct (decide (i = j)) as [->|]; [congruence|lia]. }
  destruct e as [c|].
  - destruct (decide (c = A)) as [->|Hc].
    + (* the callback moves itself behind the index *)
      destruct (EventStore.exec bodies n (Run (bodies A v)) (record_call A v w))
        as [w1|] eqn:E; [|done].
      assert (Hw1 : evaluates (Run (bodies A v)) (record_call A v w)
                (with_store (on ev A) (with_store (off ev A) (record_call A v w)))).
      { rewrite HA. apply evaluates_off, evaluates_on, evaluates_done. }
      rewrite (evaluates_deterministic bodies _ _ _ _ (ex_intro _ n E) Hw1).
      apply IH. unfold loops. simpl.
      assert (HBdel : Some B ∈ set_delete A es).
      { apply elem_of_live. rewrite live_set_delete, list_elem_of_filter.
        split; [done|by apply elem_of_live]. }
      assert (Hoff : off ev A (store w) =
        {| values := values (store w); listeners := listeners (store w);
           heap := <[l := set_delete A es]> (heap (store w));
           next := next (store w) |}).
      { rewrite (off_known _ _ _ l es) by done. f_equal.
        unfold set_size.
        apply elem_of_live in HBdel.
        destruct (live (set_delete A es)); [by apply not_elem_of_nil in HBdel|done]. }
      rewrite Hoff. rewrite (on_known _ _ _ l) by done. simpl.
      split; [done|].
      exists (set_delete A es ++ [Some A]). split_and!.
      * rewrite lookup_alter_eq, lookup_insert_eq. simpl. f_equal.
        apply set_add_fresh. rewrite live_set_delete, list_elem_of_filter.
        by intros [Hne _].
      * exists (length (set_delete A es)). split.
        -- rewrite length_set_delete. lia.
        -- by apply list_lookup_middle.
      * apply elem_of_app. by left.
      * intros c Hin Hne. apply elem_of_app in Hin as [Hin|Hin].
        -- apply Hp; [|done]. apply elem_of_live.
           apply elem_of_live in Hin. rewrite live_set_delete in Hin.
           by apply list_elem_of_filter in Hin as [_ Hin].
        -- apply list_elem_of_singleton in Hin. congruence.
    + (* a passive callback *)
      assert (Hpc : passive (bodies c v)).
      { apply Hp; [|done]. apply list_elem_of_lookup. by exists i. }
      destruct (EventStore.exec bodies n (Run (bodies c v)) (record_call c v w))
        as [w1|] eqn:E; [|done].
      rewrite (evaluates_deterministic bodies _ _ _ _ (ex_intro _ n E)
                 (passive_evaluates_host bodies _ Hpc _)).
      apply IH. unfold loops. simpl. split; [done|].
      exists es. split_and!; try done.
      exists j. split; [|done]. apply Hnext. congruence.
  - apply IH. split; [done|]. exists es. split_and!; try done.
    exists j. split; [|done]. by apply Hnext.
Qed.

(** X5.  The same callback next to another one of the same event: the
    emission pass never ends.  Every time [forEach] reaches the
    callback, [off] leaves an [empty] marker at its place and [on]
    appends it to the very [Set] that is iterated, so that [forEach]
    reaches it again; [set] never returns. *)
Theorem self_reregistration_in_company_never_returns key v A B (w : World V H) :
  consistent (store w) →
  A ∈ registered (store w) (set_event key) →
  B ∈ registered (store w) (set_event key) →
  B ≠ A →
  bodies A v = CallOff (set_event key) A (CallOn (set_event key) A Done) →
  (∀ c, c ∈ registered (store w) (set_event key) → c ≠ A → passive (bodies c v)) →
  ∀ fuel, exec fuel (Run (CallSet key v Done)) w = None.
Proof.
  intros Hc HinA HinB HBA HA Hp fuel.
  destruct (listeners (store w) !! set_event key) as [l|] eqn:Hl;
    [|rewrite registered_unknown in HinA by done; by apply not_elem_of_nil in HinA].
  destruct (consistent_entry _ Hc _ _ Hl) as (es & Hes & _).
  rewrite (registered_known _ _ _ _ Hl Hes) in *.
  destruct fuel as [|[|fuel]]; [done|done|].
  cbn [EventStore.exec]. simpl. rewrite Hl.
  rewrite (forEach_never_ends (set_event key) v A B l HBA HA); [done|].
  split; [done|]. exists es. split_and!.
  - done.
  - apply elem_of_live, list_elem_of_lookup in HinA as [j Hj].
    exists j. split; [lia|done].
  - by apply elem_of_live.
  - intros c Hin Hne. apply Hp; [|done]. by apply elem_of_live.
Qed.

End Reentrancy.

Lemma callbacks_get_the_new_value_witness :
  ∃ w', evaluates (asking "k") (Run (CallSet "k" 7 Done)) asking_world w' ∧
    host w' = fold_left (λ h c, h ++ [(c, Some 7)])
                (registered (store asking_world) (set_event "k")) (host asking_world) ∧
    (∀ key', key' ≠ "k"%string → get key' (store w') = get key' (store asking_world)) ∧
    (∀ ev, registered (store w') ev = registered (store asking_world) ev).
Proof.
  apply (callbacks_get_the_new_value (asking "k") "k" 7
           (λ c o seen, seen ++ [(c, o)]) asking_world).
  - apply StoreLaws.consistent_two.
  - intros c _. reflexivity.
Defined.

Lemma self_reregistration_alone_terminates_witness :
  ∃ w', evaluates reregistering (Run (CallSet "k" 7 Done))
          (Scenarios.blank Scenarios.one_listener) w' ∧
    invoked_since (Scenarios.blank Scenarios.one_listener) w' = [(0, 7)] ∧
    registered (store w') (set_event "k") = [0] ∧
    listeners (store w') !! set_event "k" =
      Some (next (store (Scenarios.blank Scenarios.one_listener))).
Proof.
  apply (self_reregistration_alone_terminates reregistering "k" 7 0 Done).
  - apply consistent_on, consistent_createDataStore.
  - vm_compute. reflexivity.
  - reflexivity.
  - constructor.
Defined.

Lemma self_reregistration_in_company_never_returns_witness :
  exec reregistering 1000 (Run (CallSet "k" 7 Done))
    (Scenarios.blank Scenarios.two_listeners) = None.
Proof.
  assert (Hr : registered (store (Scenarios.blank Scenarios.two_listeners)) (set_event "k")
               = [0; 1]) by (vm_compute; reflexivity).
  apply (self_reregistration_in_company_never_returns reregistering "k" 7 0 1
           (Scenarios.blank Scenarios.two_listeners)).
  - apply StoreLaws.consistent_two.
  - rewrite Hr. by left.
  - rewrite Hr. right. by left.
  - lia.
  - reflexivity.
  - intros c Hc Hne. destruct c as [|c]; [done|]. constructor.
Defined.

End Reentrancy.

(** ** The timeline under the events of a session *)

Module SessionFacts.
Import EventStore EventStoreFacts StoreOps Emission RenderSink JSNumber Timeline.
Import ClockFacts Rounding SnapRange Session.

Local Abbreviation evaluates := (evaluates bodies).

Global Arguments nextValue : simpl never.
Global Arguments after_update : simpl never.

(** [applyTimelineValue], field by field. *)
Lemma applyTimelineValue_fields raw st :
  applyTimelineValue raw st =
  {| isDragging := isDragging st;
     autoplayAccumulator := autoplayAccumulator st;
     currentTimelineValue := clampTime raw;
     isPaused := isPaused st;
     gs1 := gs1 st;
     applied := match ready (Some (gs1 st)) with
                | Some inst => applied st ++ [(inst, snapSegmentValue (clampTime raw))]
                | None => applied st
                end |}.
Proof.
  unfold applyTimelineValue, updatePlaybackState.
  destruct st as [d a c p [[[[inst|] [[|]|] [[[|]|]]]|]] ap]; reflexivity.
Qed.

Lemma handle_evaluates e (w : World num State) :
  wired (store w) → evaluates (Run (handle e)) w (after_event e w).
Proof.
  intros Hw. destruct e as [dt|type|value|]; simpl.
  - by apply onUpdate_evaluates.
  - apply evaluates_update, evaluates_done.
  - destruct value; try apply evaluates_done; by apply set_uTime.
  - apply evaluates_update, evaluates_done.
Qed.

Lemma after_update_store dt (w : World num State) :
  listeners (store (after_update dt w)) = listeners (store w) ∧
  heap (store (after_update dt w)) = heap (store w).
Proof.
  unfold after_update. destruct (_ || _); [done|]. by destruct (fge _ _).
Qed.

Lemma after_event_store e (w : World num State) :
  listeners (store (after_event e w)) = listeners (store w) ∧
  heap (store (after_event e w)) = heap (store w).
Proof.
  destruct e as [dt|type|value|]; simpl; try done.
  - apply after_update_store.
  - by destruct value.
Qed.

Lemma after_event_wired e (w : World num State) :
  wired (store w) → wired (store (after_event e w)).
Proof.
  intros Hw. destruct e as [dt|type|value|]; simpl; try done.
  - by apply after_update_wired.
  - destruct value; try done; by apply wired_store_value.
Qed.

Lemma after_events_wired es : ∀ w : World num State,
  wired (store w) → wired (store (after_events es w)).
Proof.
  induction es as [|e es IH]; intros w Hw; [done|].
  apply IH. by apply after_event_wired.
Qed.

Lemma session_evaluates es : ∀ w : World num State,
  wired (store w) → evaluates (Run (session es)) w (after_events es w).
Proof.
  induction es as [|e es IH]; intros w Hw.
  - apply evaluates_done.
  - change (session (e :: es)) with (seq (handle e) (session es)).
    change (after_events (e :: es) w) with (after_events es (after_event e w)).
    eapply evaluates_seq; [by apply handle_evaluates|].
    apply IH. by apply after_event_wired.
Qed.

Lemma after_events_app es es' (w : World num State) :
  after_events (es ++ es') w = after_events es' (after_events es w).
Proof. apply fold_left_app. Qed.

Lemma after_events_frames dts : ∀ w : World num State,
  after_events (Frame <$> dts) w = after_frames dts w.
Proof. induction dts as [|dt dts IH]; intros w; [done|]. apply IH. Qed.

End SessionFacts.

Module TimelineLaws.
Import EventStore EventStoreFacts StoreOps Emission RenderSink JSNumber Timeline.
Import ClockFacts Rounding SnapRange Session SessionFacts.

Local Abbreviation evaluates := (evaluates bodies).
Local Open Scope Z_scope.

(** Checks of the 101 results of [clampTime]. *)
Lemma all_snaps_multiples :
  all_snaps (λ k r, num_eqb r (fmul (of_Z (Z.min k 99)) TIMELINE_STEP)) = true.
Proof. vm_compute. reflexivity. Qed.

Lemma all_snaps_segment : all_snaps (λ _ r, num_eqb (snapSegmentValue r) r) = true.
Proof. vm_compute. reflexivity. Qed.

Lemma all_snaps_next :
  all_snaps (λ k r, num_eqb (clampTime (nextValue r)) (snap (next_index k))) = true.
Proof. vm_compute. reflexivity. Qed.

Lemma all_snaps_fill :
  all_snaps (λ k r, fle (of_Z 0) (trackFillPercent r) &&
                    fle (trackFillPercent r) (of_Z 99) &&
                    num_eqb (Math_round (trackFillPercent r)) (of_Z (Z.min k 99))) = true.
Proof. vm_compute. reflexivity. Qed.

Lemma snap_multiple k : 0 <= k <= 100 → snap k = fmul (of_Z (Z.min k 99)) TIMELINE_STEP.
Proof.
  intros Hk. apply num_eqb_eq.
  exact (all_snaps_spec _ all_snaps_multiples k Hk).
Qed.

Lemma snap_on_timeline k : 0 <= k <= 100 → on_timeline (snap k).
Proof. intros Hk. exists (Z.min k 99). split; [lia|by apply snap_multiple]. Qed.

Lemma on_timeline_snap v : on_timeline v → ∃ k, 0 <= k <= 99 ∧ v = snap k.
Proof.
  intros (k & Hk & ->). exists k. split; [done|].
  rewrite snap_multiple by lia. by rewrite Z.min_l by lia.
Qed.

Lemma snapSegmentValue_snap k : 0 <= k <= 100 → snapSegmentValue (snap k) = snap k.
Proof.
  intros Hk. apply num_eqb_eq. exact (all_snaps_spec _ all_snaps_segment k Hk).
Qed.

Lemma clampTime_next_snap k :
  0 <= k <= 100 → clampTime (nextValue (snap k)) = snap (next_index k).
Proof.
  intros Hk. apply num_eqb_eq. exact (all_snaps_spec _ all_snaps_next k Hk).
Qed.

Lemma next_index_range k : 0 <= k <= 100 → 0 <= next_index k <= 99.
Proof. unfold next_index. destruct (Z.ltb_spec k 99); lia. Qed.

(** X6.  What [applyTimelineValue] hands to the render sink is the value
    it stores as [currentTimelineValue]: snapping the clamped value into
    the segment changes nothing.  The instance gets it once if the target
    is ready and not at all otherwise; the dragging and paused flags and
    the accumulator are not touched. *)
Theorem render_sink_gets_the_timeline_value raw st :
  valid raw →
  snapSegmentValue (clampTime raw) = clampTime raw ∧
  currentTimelineValue (applyTimelineValue raw st) = clampTime raw ∧
  applied (applyTimelineValue raw st) =
    match ready (Some (gs1 st)) with
    | Some inst => applied st ++ [(inst, clampTime raw)]
    | None => applied st
    end ∧
  isDragging (applyTimelineValue raw st) = isDragging st ∧
  isPaused (applyTimelineValue raw st) = isPaused st ∧
  autoplayAccumulator (applyTimelineValue raw st) = autoplayAccumulator st.
Proof.
  intros Hv.
  assert (Hseg : snapSegmentValue (clampTime raw) = clampTime raw).
  { destruct (clampTime_snap raw Hv) as (k & Hk & ->). by apply snapSegmentValue_snap. }
  rewrite applyTimelineValue_fields. simpl. rewrite Hseg. done.
Qed.

Lemma render_sink_gets_the_timeline_value_witness :
  snapSegmentValue (clampTime (decimal 199 100)) = clampTime (decimal 199 100) ∧
  currentTimelineValue (applyTimelineValue (decimal 199 100) ready_state) =
    clampTime (decimal 199 100) ∧
  applied (applyTimelineValue (decimal 199 100) ready_state) =
    match ready (Some (gs1 ready_state)) with
    | Some inst => applied ready_state ++ [(inst, clampTime (decimal 199 100))]
    | None => applied ready_state
    end ∧
  isDragging (applyTimelineValue (decimal 199 100) ready_state) = isDragging ready_state ∧
  isPaused (applyTimelineValue (decimal 199 100) ready_state) = isPaused ready_state ∧
  autoplayAccumulator (applyTimelineValue (decimal 199 100) ready_state) =
    autoplayAccumulator ready_state.
Proof.
  apply (render_sink_gets_the_timeline_value (decimal 199 100) ready_state).
  vm_compute. reflexivity.
Defined.

(** X7.  The percentage [setSliderTrackFill] computes.  For a value
    [clampTime] returned, which is what [syncSliderValue] passes it, the
    percentage is between 0 and 99 and rounds to the index of the value
    on the grid.  For the raw maximum [2] of the slider, which
    [onSliderInput] passes it before the write to the store, it is 100. *)
Theorem track_fill_percent_range x :
  valid x →
  fle (of_Z 0) (trackFillPercent (clampTime x)) = true ∧
  fle (trackFillPercent (clampTime x)) (of_Z 99) = true ∧
  (∃ k, 0 <= k <= 99 ∧ clampTime x = fmul (of_Z k) TIMELINE_STEP ∧
        Math_round (trackFillPercent (clampTime x)) = of_Z k) ∧
  trackFillPercent TIMELINE_MAX = of_Z 100.
Proof.
  intros Hv. destruct (clampTime_snap x Hv) as (k & Hk & ->).
  pose proof (all_snaps_spec _ all_snaps_fill k Hk) as Hfill. simpl in Hfill.
  rewrite !andb_true_iff in Hfill. destruct Hfill as [[Hlo Hhi] Hround].
  split_and!; [done|done| |vm_compute; reflexivity].
  exists (Z.min k 99). split; [lia|]. split; [by apply snap_multiple|by apply num_eqb_eq].
Qed.

Lemma track_fill_percent_range_witness :
  fle (of_Z 0) (trackFillPercent (clampTime (of_Z 2))) = true ∧
  fle (trackFillPercent (clampTime (of_Z 2))) (of_Z 99) = true ∧
  (∃ k, 0 <= k <= 99 ∧ clampTime (of_Z 2) = fmul (of_Z k) TIMELINE_STEP ∧
        Math_round (trackFillPercent (clampTime (of_Z 2))) = of_Z k) ∧
  trackFillPercent TIMELINE_MAX = of_Z 100.
Proof.
  apply (track_fill_percent_range (of_Z 2)). vm_compute. reflexivity.
Defined.

End TimelineLaws.

Module SessionLaws.
Import EventStore EventStoreFacts StoreOps Emission RenderSink JSNumber Timeline.
Import ClockFacts Rounding SnapRange Session SessionFacts TimelineLaws.

Local Abbreviation evaluates := (evaluates bodies).
Local Open Scope Z_scope.

(** A DOM event of the slider does nothing, starts a drag or ends one. *)
Lemma slider_event_cases type st :
  slider_event type st = st ∨
  (type ∈ drag_starts ∧ slider_event type st = set_isDragging true st) ∨
  (type ∈ drag_ends ∧ slider_event type st = set_isDragging false st).
Proof.
  unfold slider_event, stopPointerEvent, stopMouseEvent, stopTouchEvent.
  repeat match goal with
  | |- context [bool_decide ?P] => destruct (bool_decide P); [|idtac]
  | |- context [String.eqb type ?s] =>
      destruct (String.eqb_spec type s) as [->|?]; simpl
  end;
  first [by left
        |right; left; split; [unfold drag_starts; set_solver|done]
        |right; right; split; [unfold drag_ends; set_solver|done]].
Qed.

Lemma slider_event_start type st :
  type ∈ drag_starts → slider_event type st = set_isDragging true st.
Proof.
  unfold drag_starts. rewrite !elem_of_cons, elem_of_nil.
  intros [->|[->|[->|[]]]]; reflexivity.
Qed.

Lemma slider_event_end type st :
  type ∈ drag_ends → slider_event type st = set_isDragging false st.
Proof.
  unfold drag_ends. rewrite !elem_of_cons, elem_of_nil.
  intros [->|[->|[->|[->|[->|[->|[]]]]]]]; reflexivity.
Qed.

Lemma slider_event_keeps type st :
  type ∉ drag_ends → isDragging st = true → isDragging (slider_event type st) = true.
Proof.
  intros Hn Hd. destruct (slider_event_cases type st) as [->|[[_ ->]|[He _]]]; done.
Qed.

Lemma slider_event_fields type st :
  autoplayAccumulator (slider_event type st) = autoplayAccumulator st ∧
  currentTimelineValue (slider_event type st) = currentTimelineValue st ∧
  isPaused (slider_event type st) = isPaused st ∧
  gs1 (slider_event type st) = gs1 st ∧
  applied (slider_event type st) = applied st.
Proof.
  destruct (slider_event_cases type st) as [->|[[_ ->]|[_ ->]]]; done.
Qed.

Lemma applyTimelineValue_settled raw st k :
  0 <= k <= 100 → clampTime raw = snap k →
  Forall (λ p, on_timeline p.2) (applied st) →
  settled (applyTimelineValue raw st).
Proof.
  intros Hk Hc Hap. rewrite applyTimelineValue_fields, Hc.
  split; unfold currentTimelineValue, applied.
  - by apply snap_on_timeline.
  - destruct (ready (Some (gs1 st))); [|exact Hap].
    apply Forall_app. split; [done|]. apply Forall_singleton. simpl.
    rewrite snapSegmentValue_snap by done. by apply snap_on_timeline.
Qed.

Lemma after_event_settled e (w : World num State) :
  well_formed e → settled (host w) → settled (host (after_event e w)).
Proof.
  intros Hwf [Hcur Hap]. destruct e as [dt|type|value|]; simpl.
  - unfold after_update. destruct (_ || _); [done|].
    destruct (fge _ _); [|done]. simpl.
    destruct (on_timeline_snap _ Hcur) as (k & Hk & ->).
    apply (applyTimelineValue_settled _ _ (next_index k)).
    + pose proof (next_index_range k). lia.
    + apply clampTime_next_snap. lia.
    + done.
  - destruct (slider_event_fields type (host w)) as (_ & Ec & _ & _ & Ea).
    unfold settled. by rewrite Ec, Ea.
  - simpl in Hwf. destruct (clampTime_snap value Hwf) as (k & Hk & Hc).
    destruct value; try done; simpl;
      by apply (applyTimelineValue_settled _ _ k).
  - done.
Qed.

Lemma after_events_store es : ∀ w : World num State,
  listeners (store (after_events es w)) = listeners (store w) ∧
  heap (store (after_events es w)) = heap (store w) ∧
  next (store (after_events es w)) = next (store w).
Proof.
  induction es as [|e es IH]; intros w; [done|].
  change (after_events (e :: es) w) with (after_events es (after_event e w)).
  destruct (IH (after_event e w)) as (-> & -> & ->).
  destruct e as [dt|type|value|]; simpl; try done.
  - unfold after_update. destruct (_ || _); [done|]. by destruct (fge _ _).
  - by destruct value.
Qed.

Lemma after_events_settled es : ∀ w : World num State,
  Forall well_formed es → settled (host w) → settled (host (after_events es w)).
Proof.
  induction es as [|e es IH]; intros w Hwf Hs; [done|].
  apply Forall_cons in Hwf as [He Hes].
  apply IH; [done|]. by apply after_event_settled.
Qed.

Lemma after_events_gs1 es : ∀ w : World num State,
  gs1 (host (after_events es w)) = gs1 (host w).
Proof.
  induction es as [|e es IH]; intros w; [done|].
  change (after_events (e :: es) w) with (after_events es (after_event e w)).
  rewrite IH. destruct e as [dt|type|value|]; simpl; try done.
  - unfold after_update. destruct (_ || _); [done|].
    destruct (fge _ _); [|done]. simpl. by rewrite applyTimelineValue_fields.
  - by destruct (slider_event_fields type (host w)) as (_ & _ & _ & -> & _).
  - destruct value; try done; simpl; by rewrite applyTimelineValue_fields.
Qed.

(** X8.  Whatever happens in a session (frames, DOM events of the slider,
    slider inputs, clicks on the play/pause button, in any order), every
    handler returns, the timeline value stays on the grid of the hundred
    values [k * STEP], so does every value given to the render target,
    and the store keeps [timelineHandler] as the one callback of
    ["timeline.uTime:set"]. *)
Theorem session_keeps_timeline_on_grid es (w : World num State) :
  Forall well_formed es →
  wired (store w) →
  settled (host w) →
  ∃ w', evaluates (Run (session es)) w w' ∧
        wired (store w') ∧
        listeners (store w') = listeners (store w) ∧
        settled (host w') ∧
        gs1 (host w') = gs1 (host w).
Proof.
  intros Hwf Hw Hs. exists (after_events es w). split_and!.
  - by apply session_evaluates.
  - by apply after_events_wired.
  - apply after_events_store.
  - by apply after_events_settled.
  - apply after_events_gs1.
Qed.

Lemma settled_ready_state : settled ready_state.
Proof. split; [|constructor]. exists 0. split; [lia|]. vm_compute. reflexivity. Qed.

Lemma session_keeps_timeline_on_grid_witness :
  ∃ w', evaluates (Run (session [Frame (decimal 1 10); SliderEvent "pointerdown";
                                 SliderInput (decimal 777 1000); SliderEvent "touchend";
                                 PlayPauseClick; Frame (of_Z 3)])) ready_world w' ∧
        wired (store w') ∧
        listeners (store w') = listeners (store ready_world) ∧
        settled (host w') ∧
        gs1 (host w') = gs1 (host ready_world).
Proof.
  apply (session_keeps_timeline_on_grid
           [Frame (decimal 1 10); SliderEvent "pointerdown";
            SliderInput (decimal 777 1000); SliderEvent "touchend";
            PlayPauseClick; Frame (of_Z 3)] ready_world).
  - repeat constructor.
  - exact wired_wired_store.
  - exact settled_ready_state.
Defined.

End SessionLaws.

Module PlaybackLaws.
Import EventStore EventStoreFacts StoreOps Emission RenderSink JSNumber Timeline.
Import ClockFacts Rounding SnapRange Session SessionFacts TimelineLaws SessionLaws.

Local Abbreviation evaluates := (evaluates bodies).
Local Open Scope Z_scope.

Lemma next_index_mod k : 0 <= k <= 99 → next_index k = (k + 1) mod 100.
Proof.
  intros Hk. unfold next_index. destruct (Z.ltb_spec k 99).
  - by rewrite Z.mod_small by lia.
  - by replace k with 99 by lia.
Qed.

(** The frames of [every_frame_advances], one step of the grid each. *)
Lemma after_frames_walk dts : ∀ (w : World num State) k,
  isDragging (host w) = false → isPaused (host w) = false →
  0 <= k <= 99 →
  currentTimelineValue (host w) = fmul (of_Z k) TIMELINE_STEP →
  every_frame_advances (autoplayAccumulator (host w)) dts →
  currentTimelineValue (host (after_frames dts w)) =
    fmul (of_Z ((k + Z.of_nat (length dts)) mod 100)) TIMELINE_STEP ∧
  ∃ ws cs, writes (after_frames dts w) = writes w ++ ws ∧ length ws = length dts ∧
           calls (after_frames dts w) = calls w ++ cs ∧ length cs = length dts.
Proof.
  induction dts as [|dt dts IH]; intros w k Hd Hp Hk Hcur Hadv.
  - split.
    + simpl. rewrite Z.add_0_r, Z.mod_small by lia. exact Hcur.
    + exists [], []. by rewrite !app_nil_r.
  - destruct Hadv as [Hge Hadv].
    change (after_frames (dt :: dts) w) with (after_frames dts (after_update dt w)).
    assert (Hk' : 0 <= next_index k <= 99) by (apply next_index_range; lia).
    assert (Hsnap : snap k = fmul (of_Z k) TIMELINE_STEP).
    { rewrite snap_multiple by lia. by rewrite Z.min_l by lia. }
    assert (Hnext : clampTime (nextValue (currentTimelineValue (host w))) =
                    fmul (of_Z (next_index k)) TIMELINE_STEP).
    { rewrite Hcur, <- Hsnap, clampTime_next_snap by lia.
      rewrite snap_multiple by lia. by rewrite Z.min_l by lia. }
    destruct (IH (after_update dt w) (next_index k)) as (Hc & ws & cs & Ew & Lw & Ec & Lc).
    + unfold after_update. rewrite Hd, Hp, Hge. simpl.
      by rewrite applyTimelineValue_fields.
    + unfold after_update. rewrite Hd, Hp, Hge. simpl.
      by rewrite applyTimelineValue_fields.
    + done.
    + unfold after_update. rewrite Hd, Hp, Hge. simpl.
      rewrite applyTimelineValue_fields. exact Hnext.
    + unfold after_update. rewrite Hd, Hp, Hge. simpl.
      rewrite applyTimelineValue_fields. exact Hadv.
    + split.
      * rewrite Hc. do 2 f_equal. rewrite next_index_mod by lia.
        rewrite Zplus_mod_idemp_l. f_equal. simpl length. lia.
      * revert Ew Ec. unfold after_update. rewrite Hd, Hp, Hge. simpl.
        intros Ew Ec.
        exists ((uTime, nextValue (currentTimelineValue (host w))) :: ws),
               ((timelineHandler, nextValue (currentTimelineValue (host w))) :: cs).
        rewrite Ew, Ec, <- !app_assoc. simpl. by rewrite Lw, Lc.
Qed.

(** X9.  Autoplay walks the grid.  While neither paused nor dragging,
    frames that each bring the accumulator to [STEP] move the timeline
    value one grid position per frame, from [k * STEP] to
    [((k + n) mod 100) * STEP] after [n] frames, wrapping from the last
    position to the first, with one write to the store and one call of
    the handler per frame.  The value written, [current + STEP], is not
    always a grid value; the handler's [clampTime] puts it back. *)
Theorem autoplay_walks_the_grid dts (w : World num State) k :
  wired (store w) →
  isDragging (host w) = false → isPaused (host w) = false →
  0 <= k <= 99 →
  currentTimelineValue (host w) = fmul (of_Z k) TIMELINE_STEP →
  every_frame_advances (autoplayAccumulator (host w)) dts →
  ∃ w', evaluates (Run (frames dts)) w w' ∧
        currentTimelineValue (host w') =
          fmul (of_Z ((k + Z.of_nat (length dts)) mod 100)) TIMELINE_STEP ∧
        length (written_since w w') = length dts ∧
        length (invoked_since w w') = length dts.
Proof.
  intros Hw Hd Hp Hk Hcur Hadv. exists (after_frames dts w).
  destruct (after_frames_walk dts w k Hd Hp Hk Hcur Hadv)
    as (Hc & ws & cs & Ew & Lw & Ec & Lc).
  split_and!.
  - by apply frames_evaluates.
  - exact Hc.
  - unfold written_since. rewrite Ew, drop_app_length. exact Lw.
  - unfold invoked_since. rewrite Ec, drop_app_length. exact Lc.
Qed.

Lemma autoplay_walks_the_grid_witness :
  ∃ w', evaluates (Run (frames [decimal 4 100; decimal 4 100; decimal 4 100]))
          (with_host (set_currentTimelineValue (fmul (of_Z 98) TIMELINE_STEP)) ready_world) w' ∧
        currentTimelineValue (host w') =
          fmul (of_Z ((98 + Z.of_nat (length [decimal 4 100; decimal 4 100; decimal 4 100]))
                      mod 100)) TIMELINE_STEP ∧
        length (written_since
                  (with_host (set_currentTimelineValue (fmul (of_Z 98) TIMELINE_STEP)) ready_world)
                  w') = length [decimal 4 100; decimal 4 100; decimal 4 100] ∧
        length (invoked_since
                  (with_host (set_currentTimelineValue (fmul (of_Z 98) TIMELINE_STEP)) ready_world)
                  w') = length [decimal 4 100; decimal 4 100; decimal 4 100].
Proof.
  apply (autoplay_walks_the_grid [decimal 4 100; decimal 4 100; decimal 4 100]
           (with_host (set_currentTimelineValue (fmul (of_Z 98) TIMELINE_STEP)) ready_world) 98).
  - exact wired_wired_store.
  - reflexivity.
  - reflexivity.
  - lia.
  - reflexivity.
  - vm_compute. repeat split.
Defined.

(** X10.  A slider input that is a number is written to the store as it
    is and reaches the handler once; the store then holds the raw value
    while the timeline value is the clamped and snapped one.  The
    accumulator and the paused and dragging flags are not touched: an
    input also moves the timeline of a paused session. *)
Theorem slider_input_is_stored_raw value (w : World num State) :
  wired (store w) →
  value ≠ S754_nan →
  ∃ w', evaluates (Run (onSliderInput value)) w w' ∧
        get uTime (store w') = Some value ∧
        currentTimelineValue (host w') = clampTime value ∧
        written_since w w' = [(uTime, value)] ∧
        invoked_since w w' = [(timelineHandler, value)] ∧
        autoplayAccumulator (host w') = autoplayAccumulator (host w) ∧
        isPaused (host w') = isPaused (host w) ∧
        isDragging (host w') = isDragging (host w).
Proof.
  intros Hw Hn. exists (after_event (SliderInput value) w).
  split; [exact (handle_evaluates (SliderInput value) w Hw)|].
  assert (E : after_event (SliderInput value) w =
    {| store := store_value uTime value (store w);
       host := applyTimelineValue value (host w);
       calls := calls w ++ [(timelineHandler, value)];
       writes := writes w ++ [(uTime, value)] |}) by (by destruct value).
  rewrite E. simpl. rewrite applyTimelineValue_fields. simpl.
  unfold get, written_since, invoked_since. simpl.
  rewrite lookup_insert_eq, !drop_app_length. done.
Qed.

Lemma slider_input_is_stored_raw_witness :
  ∃ w', evaluates (Run (onSliderInput (decimal 199 100))) ready_world w' ∧
        get uTime (store w') = Some (decimal 199 100) ∧
        currentTimelineValue (host w') = clampTime (decimal 199 100) ∧
        written_since ready_world w' = [(uTime, decimal 199 100)] ∧
        invoked_since ready_world w' = [(timelineHandler, decimal 199 100)] ∧
        autoplayAccumulator (host w') = autoplayAccumulator (host ready_world) ∧
        isPaused (host w') = isPaused (host ready_world) ∧
        isDragging (host w') = isDragging (host ready_world).
Proof.
  apply (slider_input_is_stored_raw (decimal 199 100) ready_world).
  - exact wired_wired_store.
  - vm_compute. discriminate.
Defined.

End PlaybackLaws.

Module ControlLaws.
Import EventStore EventStoreFacts StoreOps Emission RenderSink JSNumber Timeline.
Import ClockFacts Rounding SnapRange Session SessionFacts TimelineLaws SessionLaws.

Local Abbreviation evaluates := (evaluates bodies).

(** Frames of a paused session leave what the pause left. *)
Lemma after_frames_paused dts (w : World num State) :
  isPaused (host w) = true → autoplayAccumulator (host w) = of_Z 0 →
  after_frames dts w = w.
Proof.
  intros Hp Ha. destruct dts as [|dt dts]; [done|].
  rewrite after_frames_idle; [|by rewrite Hp, orb_true_r|done].
  destruct w as [s [d a c p g ap] cs ws]. simpl in *. by subst.
Qed.

(** X11.  Pausing discards the backlog.  After a click on the play/pause
    button of a playing session, any number of frames, and a second
    click, the first frame counts from zero: it advances the timeline,
    by one step, exactly when its own [dt * 0.5] reaches [STEP], whatever
    the accumulator held before the pause and however long the pause
    was. *)
Theorem pause_discards_the_backlog dts dt (w : World num State) :
  wired (store w) →
  isDragging (host w) = false → isPaused (host w) = false →
  ∃ w', evaluates
          (Run (session (PlayPauseClick :: (Frame <$> dts) ++ [PlayPauseClick; Frame dt])))
          w w' ∧
        isPaused (host w') = false ∧
        written_since w w' =
          (if fge (fadd (of_Z 0) (fmul dt RATE)) AUTOPLAY_INTERVAL
           then [(uTime, nextValue (currentTimelineValue (host w)))] else []) ∧
        autoplayAccumulator (host w') =
          (if fge (fadd (of_Z 0) (fmul dt RATE)) AUTOPLAY_INTERVAL
           then fsub (fadd (of_Z 0) (fmul dt RATE)) AUTOPLAY_INTERVAL
           else fadd (of_Z 0) (fmul dt RATE)).
Proof.
  intros Hw Hd Hp.
  exists (after_events (PlayPauseClick :: (Frame <$> dts) ++ [PlayPauseClick; Frame dt]) w).
  split; [by apply session_evaluates|].
  change (after_events (PlayPauseClick :: ?es) w)
    with (after_events es (with_host handlePlayPauseClick w)).
  rewrite after_events_app, after_events_frames.
  rewrite after_frames_paused;
    [|unfold handlePlayPauseClick; simpl; by rewrite Hp|done].
  change (after_events [PlayPauseClick; Frame dt] ?x)
    with (after_update dt (with_host handlePlayPauseClick x)).
  unfold after_update, handlePlayPauseClick. simpl. rewrite Hd, Hp. simpl.
  unfold written_since.
  destruct (fge _ _); simpl.
  - rewrite applyTimelineValue_fields, drop_app_length. simpl. by rewrite ?Hp.
  - rewrite drop_all. by rewrite ?Hp.
Qed.

Lemma pause_discards_the_backlog_witness :
  ∃ w', evaluates
          (Run (session (PlayPauseClick :: (Frame <$> [of_Z 5; of_Z 7]) ++
                         [PlayPauseClick; Frame (decimal 1 100)])))
          (with_host (set_autoplayAccumulator (decimal 19 1000)) ready_world) w' ∧
        isPaused (host w') = false ∧
        written_since (with_host (set_autoplayAccumulator (decimal 19 1000)) ready_world) w' =
          (if fge (fadd (of_Z 0) (fmul (decimal 1 100) RATE)) AUTOPLAY_INTERVAL
           then [(uTime, nextValue (currentTimelineValue
                    (host (with_host (set_autoplayAccumulator (decimal 19 1000)) ready_world))))]
           else []) ∧
        autoplayAccumulator (host w') =
          (if fge (fadd (of_Z 0) (fmul (decimal 1 100) RATE)) AUTOPLAY_INTERVAL
           then fsub (fadd (of_Z 0) (fmul (decimal 1 100) RATE)) AUTOPLAY_INTERVAL
           else fadd (of_Z 0) (fmul (decimal 1 100) RATE)).
Proof.
  apply (pause_discards_the_backlog [of_Z 5; of_Z 7] (decimal 1 100)
           (with_host (set_autoplayAccumulator (decimal 19 1000)) ready_world)).
  - exact wired_wired_store.
  - reflexivity.
  - reflexivity.
Defined.

(** While the slider is dragged, events that do not end the drag write
    nothing and leave the timeline value alone. *)
Lemma after_event_dragging e (w : World num State) :
  keeps_drag e → isDragging (host w) = true →
  store (after_event e w) = store w ∧
  calls (after_event e w) = calls w ∧
  writes (after_event e w) = writes w ∧
  isDragging (host (after_event e w)) = true ∧
  currentTimelineValue (host (after_event e w)) = currentTimelineValue (host w) ∧
  applied (host (after_event e w)) = applied (host w) ∧
  (autoplayAccumulator (host w) = of_Z 0 ∨ (∃ dt, e = Frame dt) →
     autoplayAccumulator (host (after_event e w)) = of_Z 0).
Proof.
  intros He Hd. destruct e as [dt|type|value|]; simpl.
  - unfold after_update. rewrite Hd. simpl. done.
  - destruct (slider_event_fields type (host w)) as (-> & -> & _ & _ & ->).
    rewrite slider_event_keeps by done. split_and!; try done.
    by intros [?|[dt ?]].
  - destruct He.
  - done.
Qed.

Lemma after_events_dragging es : ∀ w : World num State,
  Forall keeps_drag es → isDragging (host w) = true →
  store (after_events es w) = store w ∧
  calls (after_events es w) = calls w ∧
  writes (after_events es w) = writes w ∧
  isDragging (host (after_events es w)) = true ∧
  currentTimelineValue (host (after_events es w)) = currentTimelineValue (host w) ∧
  applied (host (after_events es w)) = applied (host w) ∧
  (autoplayAccumulator (host w) = of_Z 0 ∨ (∃ dt, Frame dt ∈ es) →
     autoplayAccumulator (host (after_events es w)) = of_Z 0).
Proof.
  induction es as [|e es IH]; intros w Hk Hd.
  - split_and!; try done. intros [?|[dt Hin]]; [done|]. by apply elem_of_nil in Hin.
  - apply Forall_cons in Hk as [He Hes].
    change (after_events (e :: es) w) with (after_events es (after_event e w)).
    destruct (after_event_dragging e w He Hd) as (Es & Ec & Ew & Ed & Ecur & Eap & Eacc).
    destruct (IH (after_event e w) Hes Ed) as (-> & -> & -> & -> & -> & -> & Hacc).
    split_and!; try done.
    intros [Ha|[dt Hin]].
    + apply Hacc. left. apply Eacc. by left.
    + apply elem_of_cons in Hin as [<-|Hin].
      * apply Hacc. left. apply Eacc. right. by exists dt.
      * apply Hacc. right. by exists dt.
Qed.

(** X12.  A drag suspends the clock.  From the event that starts a drag
    ([pointerdown], [mousedown] or [touchstart]) to the one that ends it
    ([pointerup], [pointercancel], [mouseup], [mouseleave], [touchend] or
    [touchcancel], of whichever device), frames, other DOM events of the
    slider and clicks on the play/pause button write nothing to the store
    and call no handler: the store and the timeline value are as they
    were.  The drag is over afterwards, and a frame in between has
    emptied the accumulator. *)
Theorem drag_suspends_the_clock start stop es (w : World num State) :
  wired (store w) →
  start ∈ drag_starts → stop ∈ drag_ends →
  Forall keeps_drag es →
  ∃ w', evaluates (Run (session (SliderEvent start :: es ++ [SliderEvent stop]))) w w' ∧
        store w' = store w ∧
        written_since w w' = [] ∧
        invoked_since w w' = [] ∧
        currentTimelineValue (host w') = currentTimelineValue (host w) ∧
        applied (host w') = applied (host w) ∧
        isDragging (host w') = false ∧
        ((∃ dt, Frame dt ∈ es) → autoplayAccumulator (host w') = of_Z 0).
Proof.
  intros Hw Hstart Hstop Hes.
  exists (after_events (SliderEvent start :: es ++ [SliderEvent stop]) w).
  split; [by apply session_evaluates|].
  change (after_events (SliderEvent start :: es ++ [SliderEvent stop]) w)
    with (after_events (es ++ [SliderEvent stop]) (with_host (slider_event start) w)).
  rewrite after_events_app.
  destruct (after_events_dragging es (with_host (slider_event start) w) Hes)
    as (Es & Ec & Ew & Ed & Ecur & Eap & Eacc).
  { simpl. by rewrite slider_event_start. }
  change (after_events [SliderEvent stop] ?x) with (with_host (slider_event stop) x).
  unfold written_since, invoked_since. simpl.
  rewrite Es, Ec, Ew, !drop_all, !(slider_event_end stop) by done. simpl.
  rewrite Ecur, Eap. simpl. rewrite !(slider_event_start start) by done.
  split_and!; try done.
  intros Hfr. apply Eacc. by right.
Qed.

Lemma drag_suspends_the_clock_witness :
  ∃ w', evaluates (Run (session (SliderEvent "pointerdown" ::
                                 [Frame (of_Z 1); SliderEvent "pointermove"; PlayPauseClick] ++
                                 [SliderEvent "touchend"]))) ready_world w' ∧
        store w' = store ready_world ∧
        written_since ready_world w' = [] ∧
        invoked_since ready_world w' = [] ∧
        currentTimelineValue (host w') = currentTimelineValue (host ready_world) ∧
        applied (host w') = applied (host ready_world) ∧
        isDragging (host w') = false ∧
        ((∃ dt, Frame dt ∈ [Frame (of_Z 1); SliderEvent "pointermove"; PlayPauseClick]) →
           autoplayAccumulator (host w') = of_Z 0).
Proof.
  apply (drag_suspends_the_clock "pointerdown" "touchend"
           [Frame (of_Z 1); SliderEvent "pointermove"; PlayPauseClick] ready_world).
  - exact wired_wired_store.
  - unfold drag_starts. constructor.
  - unfold drag_ends. repeat constructor.
  - repeat constructor. unfold drag_ends. intros Hin.
    repeat (apply elem_of_cons in Hin as [Hin|Hin]; [discriminate Hin|]).
    by apply elem_of_nil in Hin.
Defined.

End ControlLaws.

Module LifecycleLaws.
Import EventStore EventStoreFacts StoreOps Emission RenderSink JSNumber Timeline.
Import ClockFacts Rounding SnapRange Session SessionFacts TimelineLaws SessionLaws.

Local Abbreviation evaluates := (evaluates bodies).

Lemma start_session_evaluates st :
  evaluates (Run start_session) (fresh_world st) (started st).
Proof.
  unfold start_session. apply evaluates_on, evaluates_update.
  exact (set_uTime TIMELINE_MIN
           {| store := wired_store; host := setPlaybackPaused false st;
              calls := []; writes := [] |} wired_wired_store).
Qed.

Lemma clampTime_MIN : clampTime TIMELINE_MIN = TIMELINE_MIN.
Proof. vm_compute. reflexivity. Qed.

Lemma snapSegmentValue_MIN : snapSegmentValue TIMELINE_MIN = TIMELINE_MIN.
Proof. vm_compute. reflexivity. Qed.

(** X13.  The start of the load callback, from a store just created and
    whatever the variables hold: the store is left with [timelineHandler]
    as the one callback of ["timeline.uTime:set"] and [TIMELINE_MIN] under
    ["timeline.uTime"]; the first write has gone through the handler, so
    the timeline value is [TIMELINE_MIN], playback runs with an empty
    accumulator, and a ready render target has been given [TIMELINE_MIN]. *)
Theorem start_session_wires_the_store st :
  ∃ w', evaluates (Run start_session) (fresh_world st) w' ∧
        wired (store w') ∧
        get uTime (store w') = Some TIMELINE_MIN ∧
        invoked_since (fresh_world st) w' = [(timelineHandler, TIMELINE_MIN)] ∧
        currentTimelineValue (host w') = TIMELINE_MIN ∧
        isPaused (host w') = false ∧
        autoplayAccumulator (host w') = of_Z 0 ∧
        isDragging (host w') = isDragging st ∧
        applied (host w') =
          match ready (Some (gs1 st)) with
          | Some inst => applied st ++ [(inst, TIMELINE_MIN)]
          | None => applied st
          end.
Proof.
  exists (started st). split; [apply start_session_evaluates|].
  unfold started. simpl.
  rewrite applyTimelineValue_fields, clampTime_MIN, snapSegmentValue_MIN. simpl.
  split_and!; try done.
  apply wired_store_value, wired_wired_store.
Qed.

(** X14.  The whole life of the session: the start of the load callback,
    any events, and the [destroy] handler.  Everything returns, and the
    store is left without any listener: a later write to
    ["timeline.uTime"] is stored, calls nothing and leaves the variables
    of the session alone. *)
Theorem lifetime_leaves_no_listener es st v :
  ∃ w1 w2, evaluates (Run (lifetime es)) (fresh_world st) w1 ∧
           listeners (store w1) = ∅ ∧
           evaluates (Run (CallSet uTime v Done)) w1 w2 ∧
           invoked_since w1 w2 = [] ∧
           host w2 = host w1 ∧
           get uTime (store w2) = Some v.
Proof.
  set (w := after_events es (started st)).
  assert (Hwired : wired (store (started st)))
    by apply wired_store_value, wired_wired_store.
  destruct (after_events_store es (started st)) as (El & Eh & _).
  fold w in El, Eh.
  assert (Hl : listeners (store w) !! set_event uTime = Some 0%nat)
    by (rewrite El; vm_compute; reflexivity).
  assert (Hh : heap (store w) !! 0%nat = Some [Some timelineHandler])
    by (rewrite Eh; vm_compute; reflexivity).
  assert (Hoff : listeners (off (set_event uTime) timelineHandler (store w)) = ∅).
  { rewrite (off_known _ _ _ _ _ Hl Hh). simpl. rewrite El.
    apply map_eq. intros ev. rewrite lookup_empty.
    destruct (decide (ev = set_event uTime)) as [->|Hne].
    - apply lookup_delete_eq.
    - rewrite lookup_delete_ne by done.
      change (listeners (started st).(store)) with (listeners (@wired_store)).
      unfold wired_store. rewrite on_unknown by done. simpl.
      by rewrite lookup_insert_ne. }
  exists (with_store (off (set_event uTime) timelineHandler) w).
  exists (record_write uTime v
            (with_store (store_value uTime v)
               (with_store (off (set_event uTime) timelineHandler) w))).
  split_and!.
  - unfold lifetime.
    eapply evaluates_seq; [apply start_session_evaluates|].
    eapply evaluates_seq; [by apply session_evaluates|].
    apply evaluates_off, evaluates_done.
  - exact Hoff.
  - apply evaluates_set_silent; [|apply evaluates_done].
    simpl. by rewrite Hoff.
  - unfold invoked_since. simpl. by rewrite drop_all.
  - done.
  - unfold get. simpl. apply lookup_insert_eq.
Qed.

End LifecycleLaws.

Module LoadingLaws.
Import JSNumber Loading.

Local Open Scope Z_scope.

Lemma after_progress_full n :
  after_progress (S (S n)) = {| loadedCount := of_Z 2; shown := of_Z 100 |}.
Proof.
  induction n as [|n IH].
  - vm_compute. reflexivity.
  - change (after_progress (S (S (S n)))) with (handleAssetProgress (after_progress (S (S n)))).
    rewrite IH. vm_compute. reflexivity.
Qed.

(** X15.  The loading overlay never shows more than 100%.  After [n]
    [progress] events of the loader the count of loaded assets is
    [min(2, n)] and the overlay shows 0%, 50% and from then on 100%:
    progress events beyond the number of assets change nothing. *)
Theorem loading_percent_saturates n :
  loadedCount (after_progress n) = of_Z (Z.min 2 (Z.of_nat n)) ∧
  shown (after_progress n) = of_Z (Z.min 100 (50 * Z.of_nat n)).
Proof.
  destruct n as [|[|n]].
  - vm_compute. done.
  - vm_compute. done.
  - rewrite (after_progress_full n). simpl loadedCount. simpl shown.
    rewrite !Z.min_l by lia. done.
Qed.

End LoadingLaws.
